(** * Yarson portfolio homepage: navigation catalog, widget and footer

    A shallow embedding of the TypeScript sources

      - [app/types/schemas.ts]       (zod schemas),
      - [app/lib/constants.ts]       (NAV_LINKS, copyright helpers),
      - [app/components/Navigation.tsx], [Header.tsx], [Footer.tsx],

    followed by the properties of the specification that hold of them
    and the inputs on which the others fail. *)

From Stdlib Require Import ZArith Lia DecimalString.
From Stdlib Require DecimalPos DecimalZ.
From stdpp Require Import base option list sorting strings gmap.

Open Scope string_scope.
Open Scope Z_scope.
Open Scope list_scope.

(** ** Results of a zod parse

    [schema.parse(x)] either returns the parsed data or throws a
    [ZodError] carrying the issues; [safeParse] returns the same
    information as a value.  Both are represented by one sum type. *)

Inductive ParseResult (A : Type) : Type :=
  | ParseOk (data : A)
  | ZodError (issues : list string).
Arguments ParseOk {A} data.
Arguments ZodError {A} issues.

Definition success {A} (r : ParseResult A) : bool :=
  match r with ParseOk _ => true | ZodError _ => false end.

Definition throws {A} (r : ParseResult A) : Prop :=
  exists issues, r = ZodError issues.

(** A single validation step: the message is reported when the check
    fails. *)
Definition check (ok : bool) (message : string) : list string :=
  if ok then [] else [message].

Definition finish {A} (data : A) (issues : list string) : ParseResult A :=
  match issues with
  | [] => ParseOk data
  | _ :: _ => ZodError issues
  end.

(** [z.string().min(n)] *)
Definition min_length (n : nat) (s : string) : bool :=
  (n <=? String.length s)%nat.

(** [z.number().int()]: the value has to be a safe integer, that is
    an integer between [Number.MIN_SAFE_INTEGER] and
    [Number.MAX_SAFE_INTEGER]. *)
Definition MAX_SAFE_INTEGER : Z := 2 ^ 53 - 1.

Definition is_safe_integer (n : Z) : bool :=
  (- MAX_SAFE_INTEGER <=? n) && (n <=? MAX_SAFE_INTEGER).

(** [z.array(...).min(n)] *)
Definition array_min {A} (n : nat) (xs : list A) : bool :=
  (n <=? length xs)%nat.

(** [new Set(xs).size === xs.length], the uniqueness test of both
    refinements of the catalog schema. *)
Definition all_distinct `{Countable A} (xs : list A) : bool :=
  (size (list_to_set xs : gset A) =? length xs)%nat.

(** ** app/types/schemas.ts *)

Module Schemas.

(** [z.enum(['navigate', 'scroll-to-top', 'placeholder'])] *)
Inductive Action : Type :=
  | navigate
  | scroll_to_top
  | placeholder.

(** [NavigationLink = z.infer<typeof NavigationLinkSchema>].  The
    field [order] is a number on which the schema imposes [.int()];
    it is represented by an integer, so that of this check the range
    of the safe integers remains to be tested at run time, next to
    the sign. *)
Record NavigationLink : Type := {
  id : string;
  label : string;
  href : string;
  action : Action;
  order : Z;
}.

Record NavigationConfig : Type := {
  links : list NavigationLink;
}.

Record CopyrightInfo : Type := {
  year : Z;
  owner : string;
}.

Record MobileMenuState : Type := {
  isOpen : bool;
}.

Section WithUrlValidator.

(** [z.string().url().safeParse(val).success]: the URL validator of
    the zod library, which is not part of the repository. *)
Variable is_url : string -> bool.

Definition href_refinement (val : string) : bool :=
  String.prefix "#" val || String.prefix "/" val || is_url val.

Definition NavigationLinkSchema_issues (l : NavigationLink) : list string :=
  check (min_length 1 (id l)) "Link ID cannot be empty"
  ++ check (min_length 1 (label l)) "Link label cannot be empty"
  ++ check (min_length 1 (href l)) "Link href cannot be empty"
  ++ check (href_refinement (href l)) "Must be a valid URL, path, or anchor link"
  ++ check (is_safe_integer (order l)) "Order must be an integer"
  ++ check (0 <=? order l) "Order must be non-negative".

Definition NavigationLinkSchema (l : NavigationLink) : ParseResult NavigationLink :=
  finish l (NavigationLinkSchema_issues l).

Definition NavigationConfigSchema_issues (c : NavigationConfig) : list string :=
  concat (map NavigationLinkSchema_issues (links c))
  ++ check (array_min 1 (links c)) "Navigation must have at least one link"
  ++ check (let ids := map id (links c) in all_distinct ids)
           "All link IDs must be unique"
  ++ check (let orders := map order (links c) in all_distinct orders)
           "All link orders must be unique".

Definition NavigationConfigSchema (c : NavigationConfig) : ParseResult NavigationConfig :=
  finish c (NavigationConfigSchema_issues c).

End WithUrlValidator.

(** The [year] checked here is the one [getCopyrightInfo] read from
    a [Date]; the years of a [Date] are safe integers, so [.int()]
    has nothing to refuse. *)
Definition CopyrightInfoSchema_issues (i : CopyrightInfo) : list string :=
  check (min_length 1 (owner i)) "Copyright owner cannot be empty".

Definition CopyrightInfoSchema (i : CopyrightInfo) : ParseResult CopyrightInfo :=
  finish i (CopyrightInfoSchema_issues i).

End Schemas.

(** ** app/lib/constants.ts *)

Module Constants.
Import Schemas.

Definition NAV_LINKS : NavigationConfig := {|
  links := [
    {| id := "home"; label := "Home"; href := "/";
       action := scroll_to_top; order := 0 |};
    {| id := "work"; label := "Work"; href := "#";
       action := placeholder; order := 1 |};
    {| id := "about"; label := "About"; href := "#";
       action := placeholder; order := 2 |};
    {| id := "contact"; label := "Contact"; href := "#";
       action := placeholder; order := 3 |}
  ]
|}.

(** The statement [NavigationConfigSchema.parse(NAV_LINKS)] that runs
    when the module is evaluated, for an arbitrary catalog literal
    [c]: the module loads exactly when the parse does not throw. *)
Definition module_load (is_url : string -> bool) (c : NavigationConfig)
  : ParseResult NavigationConfig :=
  NavigationConfigSchema is_url c.

Definition COPYRIGHT_OWNER : string := "Yarson".

(** The part of a JavaScript [Date] the module looks at.  A value of
    this type stands for [new Date()], the reading of the clock at
    the instant of the call. *)
Record Date : Type := {
  getFullYear : Z;
}.

(** Conversion of an integral number inside a template literal. *)
Definition Number_toString (n : Z) : string :=
  NilZero.string_of_int (Z.to_int n).

Definition getCopyrightInfo (now : Date) : CopyrightInfo := {|
  year := getFullYear now;
  owner := COPYRIGHT_OWNER;
|}.

Definition getCopyrightText (now : Date) : ParseResult string :=
  let info := getCopyrightInfo now in
  match CopyrightInfoSchema info with
  | ZodError issues => ZodError issues
  | ParseOk _ =>
      ParseOk ("© " +:+ Number_toString (year info) +:+ " " +:+ owner info)
  end.

End Constants.

(** ** JavaScript arrays

    Arrays are mutable objects living in a heap and are passed around
    by reference.  [Array.prototype.sort] sorts its receiver in place;
    the spread [[...xs]] allocates a fresh array with the same
    elements. *)

Module Js.

Definition loc : Type := positive.

Section Arrays.
Context {A : Type}.

(** A computation over the heap that may throw. *)
Definition M (X : Type) : Type :=
  gmap loc (list A) -> option (X * gmap loc (list A)).

Definition ret {X} (x : X) : M X := fun h => Some (x, h).

Definition bind {X Y} (m : M X) (k : X -> M Y) : M Y :=
  fun h => match m h with
           | Some (x, h') => k x h'
           | None => None
           end.

(** Reading through a reference that does not designate an array
    is a [TypeError]. *)
Definition elements (l : loc) : M (list A) :=
  fun h => match h !! l with
           | Some xs => Some (xs, h)
           | None => None
           end.

Definition alloc (xs : list A) : M loc :=
  fun h => let l := fresh (dom h) in Some (l, <[l := xs]> h).

Definition store (l : loc) (xs : list A) : M unit :=
  fun h => Some (tt, <[l := xs]> h).

(** The order produced by [sort] with comparator [compareFn]: an
    element goes in front of the first element that it does not
    have to follow, which keeps elements that compare equal in
    their original order (the sort is stable). *)
Fixpoint insert_by (compareFn : A -> A -> Z) (x : A) (xs : list A) : list A :=
  match xs with
  | [] => [x]
  | y :: ys =>
      if compareFn x y <=? 0 then x :: y :: ys
      else y :: insert_by compareFn x ys
  end.

Definition sorted_by (compareFn : A -> A -> Z) (xs : list A) : list A :=
  foldr (insert_by compareFn) [] xs.

End Arrays.

Declare Scope js_scope.
Delimit Scope js_scope with js.

Module Notations.
Notation "x <- m ;; k" := (bind m (fun x => k))
  (at level 100, m at next level, right associativity) : js_scope.
End Notations.

Section ArrayMethods.
Context {A : Type}.
Import Notations.
Local Open Scope js_scope.

(** [[...xs]] *)
Definition spread (xs : loc) : M (A := A) loc :=
  es <- elements xs ;;
  alloc es.

(** [xs.sort(compareFn)]: sorts [xs] in place and returns [xs]. *)
Definition sort (xs : loc) (compareFn : A -> A -> Z) : M (A := A) loc :=
  es <- elements xs ;;
  _ <- store xs (sorted_by compareFn es) ;;
  ret xs.

(** [xs.map(f)] where the result is consumed at once as the
    children of a JSX element. *)
Definition map_children {B} (xs : loc) (f : A -> B) : M (A := A) (list B) :=
  es <- elements xs ;;
  ret (map f es).

End ArrayMethods.

End Js.

(** ** The document: nodes, events, listeners *)

Module Dom.

Inductive EventType : Type :=
  | mousedown
  | keydown
  | keyup
  | click.

#[global] Instance EventType_eq_dec : EqDecision EventType.
Proof. solve_decision. Defined.

(** The nodes an event can be aimed at.  Links are numbered by their
    position in the rendered list. *)
Inductive Node : Type :=
  | DesktopNav
  | DesktopLink (i : nat)
  | Button
  | ButtonIcon
  | Drawer
  | DrawerNav
  | DrawerLink (i : nat)
  | Elsewhere.

#[global] Instance Node_eq_dec : EqDecision Node.
Proof. solve_decision. Defined.

(** [a.contains(b)]: [b] is [a] or one of its descendants. *)
Definition contains (a b : Node) : bool :=
  match a, b with
  | DesktopNav, (DesktopNav | DesktopLink _) => true
  | Button, (Button | ButtonIcon) => true
  | Drawer, (Drawer | DrawerNav | DrawerLink _) => true
  | DrawerNav, (DrawerNav | DrawerLink _) => true
  | _, _ => bool_decide (a = b)
  end.

Record Event : Type := {
  type : EventType;
  target : Node;
  key : string;
}.

(** A function object: the code it runs and the effect run that
    created it.  Two closures are the same listener only if they are
    the same object. *)
Inductive Code : Type :=
  | code_handleClickOutside
  | code_handleEscape.

#[global] Instance Code_eq_dec : EqDecision Code.
Proof. solve_decision. Defined.

Record Closure : Type := {
  code : Code;
  created : nat;
}.

#[global] Instance Closure_eq_dec : EqDecision Closure.
Proof. solve_decision. Defined.

(** The listener table of [document]. *)
Abbreviation Listeners := (list (EventType * Closure)).

Definition addEventListener (ty : EventType) (f : Closure) (d : Listeners) : Listeners :=
  if decide ((ty, f) ∈ d) then d else d ++ [(ty, f)].

Definition removeEventListener (ty : EventType) (f : Closure) (d : Listeners) : Listeners :=
  filter (fun e => e ≠ (ty, f)) d.

(** What the browser shows: the address and the scroll offset. *)
Record Page : Type := {
  url : string;
  scrollY : Z;
}.

End Dom.

(** ** app/components: Navigation.tsx, Header.tsx, Footer.tsx *)

Module Components.
Import Schemas Constants Dom Js.Notations.
Local Open Scope js_scope.

(** [NavigationProps] of [app/types/components.ts]; the array is
    received by reference. *)
Record NavigationProps : Type := {
  props_links : Js.loc;
  className : option string;
  ariaLabel : option string;
}.

(** A state update requested by an event handler. *)
Inductive Callback : Type :=
  | setIsMobileMenuOpen (value : bool).

(** [<li key={link.id}><Link href={link.href}>{link.label}</Link></li>].
    [item_onClick] is the click handler the element was given, if any. *)
Record LinkItem : Type := {
  item_key : string;
  item_href : string;
  item_onClick : option Callback;
  children : string;
}.

(** [<nav aria-label=...><ul>...</ul></nav>] *)
Record Nav : Type := {
  nav_className : string;
  nav_ariaLabel : string;
  items : list LinkItem;
}.

Record HamburgerButton : Type := {
  onClick : Callback;
  ariaExpanded : bool;
  button_ariaLabel : string;
}.

Record NavigationView : Type := {
  desktop : Nav;
  hamburger : HamburgerButton;
  drawer : option Nav;
}.

Record FooterView : Type := {
  footer_nav : Nav;
  copyright : string;
}.

(** What [useEffect]'s cleanup function removes. *)
Record Cleanup : Type := {
  cleanup_mousedown : Closure;
  cleanup_keydown : Closure;
}.

(** The hook cells of one mounted [Navigation]. *)
Record Hooks : Type := {
  isMobileMenuOpen : bool;                 (* useState(false) *)
  menuRef : option Node;                   (* useRef(null).current *)
  buttonRef : option Node;                 (* useRef(null).current *)
  sortedLinks_memo : option (Js.loc * Js.loc);
                                           (* useMemo: [links], value *)
  effect_deps : option bool;               (* useEffect: last deps *)
  effect_cleanup : option Cleanup;         (* useEffect: last cleanup *)
}.

Definition initial_hooks : Hooks := {|
  isMobileMenuOpen := false;
  menuRef := None;
  buttonRef := None;
  sortedLinks_memo := None;
  effect_deps := None;
  effect_cleanup := None;
|}.

(** [(a, b) => a.order - b.order] *)
Definition by_order (a b : NavigationLink) : Z := order a - order b.

Definition link_item (link : NavigationLink) : LinkItem := {|
  item_key := id link;
  item_href := href link;
  item_onClick := None;
  children := label link;
|}.

(** [useMemo(() => [...links].sort(by_order), [links])] *)
Definition useMemo_sortedLinks (links : Js.loc) (memo : option (Js.loc * Js.loc))
  : Js.M (A := NavigationLink) Js.loc :=
  let compute := (copy <- Js.spread links ;; Js.sort copy by_order) in
  match memo with
  | Some (dep, value) => if decide (dep = links) then Js.ret value else compute
  | None => compute
  end.

Definition closeMobileMenu : Callback := setIsMobileMenuOpen false.

Definition handleClickOutside (menuRef buttonRef : option Node) (event : Event)
  : list Callback :=
  let target := target event in
  match menuRef, buttonRef with
  | Some menu, Some button =>
      if negb (contains menu target) && negb (contains button target)
      then [closeMobileMenu]
      else []
  | _, _ => []
  end.

Definition handleEscape (event : Event) : list Callback :=
  if String.eqb (Dom.key event) "Escape" then [closeMobileMenu] else [].

(** The body of the effect, run with dependency [isMobileMenuOpen];
    [fresh] numbers the two closures it creates. *)
Definition effect (isMobileMenuOpen : bool) (fresh : nat) (document : Listeners)
  : Listeners * option Cleanup :=
  if negb isMobileMenuOpen then (document, None)
  else
    let handleClickOutside := {| code := code_handleClickOutside; created := fresh |} in
    let handleEscape := {| code := code_handleEscape; created := fresh |} in
    let document := addEventListener mousedown handleClickOutside document in
    let document := addEventListener keydown handleEscape document in
    (document, Some {| cleanup_mousedown := handleClickOutside;
                       cleanup_keydown := handleEscape |}).

Definition run_cleanup (c : Cleanup) (document : Listeners) : Listeners :=
  let document := removeEventListener mousedown (cleanup_mousedown c) document in
  removeEventListener keydown (cleanup_keydown c) document.

(** The render function.  It returns the element tree and the hook
    cells written during the render. *)
Definition Navigation (props : NavigationProps) (hooks : Hooks)
  : Js.M (A := NavigationLink) (NavigationView * Hooks) :=
  let links := props_links props in
  let className := default "" (className props) in
  let ariaLabel := default "Main navigation" (ariaLabel props) in
  let isMobileMenuOpen := isMobileMenuOpen hooks in
  sortedLinks <- useMemo_sortedLinks links (sortedLinks_memo hooks) ;;
  desktop_items <- Js.map_children sortedLinks link_item ;;
  drawer <- (if isMobileMenuOpen
             then drawer_items <- Js.map_children sortedLinks link_item ;;
                  Js.ret (Some {| nav_className := "";
                                  nav_ariaLabel := "Mobile navigation";
                                  items := drawer_items |})
             else Js.ret None) ;;
  Js.ret
    ({| desktop := {| nav_className := "hidden sm:flex " +:+ className;
                      nav_ariaLabel := ariaLabel;
                      items := desktop_items |};
        hamburger := {| onClick := setIsMobileMenuOpen (negb isMobileMenuOpen);
                        ariaExpanded := isMobileMenuOpen;
                        button_ariaLabel := "Toggle menu" |};
        drawer := drawer |},
     {| isMobileMenuOpen := isMobileMenuOpen;
        menuRef := menuRef hooks;
        buttonRef := buttonRef hooks;
        sortedLinks_memo := Some (links, sortedLinks);
        effect_deps := effect_deps hooks;
        effect_cleanup := effect_cleanup hooks |}).

(** [Header] hands the array of the module constant to the widget. *)
Definition Header (NAV_LINKS_links : Js.loc) (hooks : Hooks)
  : Js.M (A := NavigationLink) (NavigationView * Hooks) :=
  Navigation {| props_links := NAV_LINKS_links;
                className := None;
                ariaLabel := Some "Main navigation" |} hooks.

Definition Footer (NAV_LINKS_links : Js.loc) (now : Date)
  : Js.M (A := NavigationLink) FooterView :=
  copy <- Js.spread NAV_LINKS_links ;;
  sortedLinks <- Js.sort copy by_order ;;
  match getCopyrightText now with
  | ZodError _ => fun _ => None
  | ParseOk copyrightText =>
      footer_items <- Js.map_children sortedLinks link_item ;;
      Js.ret {| footer_nav := {| nav_className := "mb-4";
                                 nav_ariaLabel := "Footer navigation";
                                 items := footer_items |};
                copyright := copyrightText |}
  end.

End Components.

(** ** The life cycle of a mounted widget

    React calls the render function, attaches the refs of the rendered
    elements, and then runs the effect when its dependency changed
    (running the previous cleanup first).  An event runs the handlers
    of the rendered elements and of the document's listener table; the
    state updates they request cause a new render.  The tree is the
    one the render function returned: the exit animation during which
    [AnimatePresence] keeps a closed drawer on screen is not part of
    it. *)

Module Runtime.
Import Schemas Constants Dom Components.

Record Instance : Type := {
  props : NavigationProps;
  hooks : Hooks;
  view : NavigationView;
}.

Record World : Type := {
  heap : gmap Js.loc (list NavigationLink);
  document : Listeners;
  root : option Instance;
  closures : nat;
  page : Page;
}.

Definition initial (h : gmap Js.loc (list NavigationLink)) (p : Page) : World := {|
  heap := h;
  document := [];
  root := None;
  closures := 0;
  page := p;
|}.

Definition is_open (w : World) : bool :=
  match root w with
  | Some inst => isMobileMenuOpen (hooks inst)
  | None => false
  end.

Definition set_state (value : bool) (hk : Hooks) : Hooks := {|
  isMobileMenuOpen := value;
  menuRef := menuRef hk;
  buttonRef := buttonRef hk;
  sortedLinks_memo := sortedLinks_memo hk;
  effect_deps := effect_deps hk;
  effect_cleanup := effect_cleanup hk;
|}.

(** Commit: [ref={buttonRef}] on the button, [ref={menuRef}] on the
    drawer when it is rendered. *)
Definition attach_refs (v : NavigationView) (hk : Hooks) : Hooks := {|
  isMobileMenuOpen := isMobileMenuOpen hk;
  menuRef := match drawer v with Some _ => Some Drawer | None => None end;
  buttonRef := Some Button;
  sortedLinks_memo := sortedLinks_memo hk;
  effect_deps := effect_deps hk;
  effect_cleanup := effect_cleanup hk;
|}.

Definition set_effect (deps : bool) (c : option Cleanup) (hk : Hooks) : Hooks := {|
  isMobileMenuOpen := isMobileMenuOpen hk;
  menuRef := menuRef hk;
  buttonRef := buttonRef hk;
  sortedLinks_memo := sortedLinks_memo hk;
  effect_deps := Some deps;
  effect_cleanup := c;
|}.

(** [useEffect(..., [isMobileMenuOpen])] after a commit. *)
Definition flush_effect (hk : Hooks) (d : Listeners) (n : nat)
  : Hooks * Listeners * nat :=
  let deps := isMobileMenuOpen hk in
  if decide (effect_deps hk = Some deps) then (hk, d, n)
  else
    let d := match effect_cleanup hk with
             | Some c => run_cleanup c d
             | None => d
             end in
    let '(d, c) := effect deps n d in
    (set_effect deps c hk, d, S n).

Definition render_and_commit (p : NavigationProps) (hk : Hooks) (w : World)
  : option World :=
  match Navigation p hk (heap w) with
  | None => None
  | Some ((v, hk), h) =>
      let hk := attach_refs v hk in
      let '(hk, d, n) := flush_effect hk (document w) (closures w) in
      Some {| heap := h;
              document := d;
              root := Some {| props := p; hooks := hk; view := v |};
              closures := n;
              page := page w |}
  end.

Definition mount (p : NavigationProps) (w : World) : option World :=
  match root w with
  | Some _ => Some w
  | None => render_and_commit p initial_hooks w
  end.

Definition unmount (w : World) : World :=
  match root w with
  | None => w
  | Some inst =>
      {| heap := heap w;
         document := match effect_cleanup (hooks inst) with
                     | Some c => run_cleanup c (document w)
                     | None => document w
                     end;
         root := None;
         closures := closures w;
         page := page w |}
  end.

Definition link_at (v : NavigationView) (n : Node) : option LinkItem :=
  match n with
  | DesktopLink i => items (desktop v) !! i
  | DrawerLink i =>
      match drawer v with
      | Some nav => items nav !! i
      | None => None
      end
  | _ => None
  end.

(** Handlers given to the rendered elements. *)
Definition element_handlers (v : NavigationView) (ev : Event) : list Callback :=
  match type ev with
  | click =>
      (if contains Button (target ev) then [onClick (hamburger v)] else [])
      ++ match link_at v (target ev) with
         | Some item => option_list (item_onClick item)
         | None => []
         end
  | _ => []
  end.

Definition call (hk : Hooks) (f : Closure) (ev : Event) : list Callback :=
  match code f with
  | code_handleClickOutside => handleClickOutside (menuRef hk) (buttonRef hk) ev
  | code_handleEscape => handleEscape ev
  end.

Definition document_handlers (hk : Hooks) (d : Listeners) (ev : Event)
  : list Callback :=
  flat_map (fun e => if decide (fst e = type ev) then call hk (snd e) ev else []) d.

Definition apply_callback (s : bool) (c : Callback) : bool :=
  match c with
  | setIsMobileMenuOpen value => value
  end.

Section WithBrowser.

(** What activating a [next/link] anchor with the given [href] does
    to the page when no handler of the application intercepts the
    click. *)
Variable follow : string -> Page -> Page.

Definition default_action (v : NavigationView) (ev : Event) (p : Page) : Page :=
  match type ev with
  | click =>
      match link_at v (target ev) with
      | Some item => follow (item_href item) p
      | None => p
      end
  | _ => p
  end.

Definition dispatch (ev : Event) (w : World) : option World :=
  match root w with
  | None => Some w
  | Some inst =>
      let callbacks :=
        element_handlers (view inst) ev
        ++ document_handlers (hooks inst) (document w) ev in
      let value := foldl apply_callback (isMobileMenuOpen (hooks inst)) callbacks in
      let w := {| heap := heap w;
                  document := document w;
                  root := root w;
                  closures := closures w;
                  page := default_action (view inst) ev (page w) |} in
      if bool_decide (value = isMobileMenuOpen (hooks inst)) then Some w
      else render_and_commit (props inst) (set_state value (hooks inst)) w
  end.

Inductive Step : Type :=
  | Mount (p : NavigationProps)
  | Dispatch (ev : Event)
  | Unmount.

Definition step (s : Step) (w : World) : option World :=
  match s with
  | Mount p => mount p w
  | Dispatch ev => dispatch ev w
  | Unmount => Some (unmount w)
  end.

Fixpoint run (steps : list Step) (w : World) : option World :=
  match steps with
  | [] => Some w
  | s :: steps =>
      match step s w with
      | Some w => run steps w
      | None => None
      end
  end.

End WithBrowser.

End Runtime.

(** ** Sample data *)

Module Examples.
Import Schemas Constants Dom Components Runtime.

(** The heap after [constants.ts] was evaluated: the array of
    [NAV_LINKS.links] lives at address 1. *)
Definition NAV_LINKS_links : Js.loc := 1%positive.

Definition catalog_heap : gmap Js.loc (list NavigationLink) :=
  {[ NAV_LINKS_links := links NAV_LINKS ]}.

(** The same catalog written down in reverse order. *)
Definition reversed_heap : gmap Js.loc (list NavigationLink) :=
  {[ NAV_LINKS_links := rev (links NAV_LINKS) ]}.

Definition empty_heap : gmap Js.loc (list NavigationLink) :=
  {[ NAV_LINKS_links := [] ]}.

(** The props [Header] passes to the widget. *)
Definition header_props : NavigationProps := {|
  props_links := NAV_LINKS_links;
  className := None;
  ariaLabel := Some "Main navigation";
|}.

(** The root view, scrolled down a little. *)
Definition home : Page := {| url := "/"; scrollY := 100 |}.

(** A browser in which following a link shows the target address at
    the top of the page. *)
Definition follow_href (href : string) (p : Page) : Page :=
  {| url := href; scrollY := 0 |}.

Definition press_toggle : Event :=
  {| type := click; target := Button; Dom.key := "" |}.

End Examples.

(** ** Vocabulary of the statements *)

Module Statements.
Import Schemas Constants Dom Components Runtime.

(** The rules a single link has to satisfy. *)
Definition link_rules (is_url : string -> bool) (l : NavigationLink) : Prop :=
  id l ≠ "" /\ label l ≠ "" /\ href l ≠ ""
  /\ href_refinement is_url (href l) = true
  /\ 0 <= order l <= MAX_SAFE_INTEGER.

(** Ascending display order. *)
Definition ascending (a b : NavigationLink) : Prop := order a <= order b.

(** The labels a list of links shows, in the order it shows them. *)
Definition labels (n : Nav) : list string := map children (items n).

(** The cell of [useMemo] is usable in heap [h] for the array [l]
    holding [xs]: it is empty, or it caches an array with the
    elements of [xs] in display order. *)
Definition memo_ready (h : gmap Js.loc (list NavigationLink)) (l : Js.loc)
    (xs : list NavigationLink) (memo : option (Js.loc * Js.loc)) : Prop :=
  memo = None
  \/ exists value, memo = Some (l, value)
                   /\ h !! value = Some (Js.sorted_by by_order xs).

(** The element tree of the widget in terms of the links in display
    order. *)
Definition drawer_of (isMobileMenuOpen : bool) (sorted : list NavigationLink)
  : option Nav :=
  if isMobileMenuOpen
  then Some {| nav_className := "";
               nav_ariaLabel := "Mobile navigation";
               items := map link_item sorted |}
  else None.

Definition view_of (p : NavigationProps) (isMobileMenuOpen : bool)
    (sorted : list NavigationLink) : NavigationView := {|
  desktop := {| nav_className := "hidden sm:flex " +:+ default "" (className p);
                nav_ariaLabel := default "Main navigation" (ariaLabel p);
                items := map link_item sorted |};
  hamburger := {| onClick := setIsMobileMenuOpen (negb isMobileMenuOpen);
                  ariaExpanded := isMobileMenuOpen;
                  button_ariaLabel := "Toggle menu" |};
  drawer := drawer_of isMobileMenuOpen sorted;
|}.

Definition with_memo (memo : Js.loc * Js.loc) (hk : Hooks) : Hooks := {|
  isMobileMenuOpen := isMobileMenuOpen hk;
  menuRef := menuRef hk;
  buttonRef := buttonRef hk;
  sortedLinks_memo := Some memo;
  effect_deps := effect_deps hk;
  effect_cleanup := effect_cleanup hk;
|}.

(** The two listeners created by the effect run numbered [n]. *)
Definition listeners_of (n : nat) : Listeners :=
  [ (mousedown, {| code := code_handleClickOutside; created := n |});
    (keydown, {| code := code_handleEscape; created := n |}) ].

Definition cleanup_of (n : nat) : Cleanup := {|
  cleanup_mousedown := {| code := code_handleClickOutside; created := n |};
  cleanup_keydown := {| code := code_handleEscape; created := n |};
|}.

(** The effect cell agrees with the listener table: listeners are
    registered exactly when the effect last ran with an open menu,
    and then the stored cleanup removes exactly them. *)
Definition effect_agrees (deps : bool) (c : option Cleanup) (d : Listeners) : Prop :=
  if deps
  then exists n, d = listeners_of n /\ c = Some (cleanup_of n)
  else d = [] /\ c = None.

Record wf_instance (w : World) (inst : Instance) : Prop := {
  wf_catalog :
    exists xs value,
      heap w !! props_links (props inst) = Some xs
      /\ sortedLinks_memo (hooks inst) = Some (props_links (props inst), value)
      /\ heap w !! value = Some (Js.sorted_by by_order xs)
      /\ view inst = view_of (props inst) (isMobileMenuOpen (hooks inst))
                             (Js.sorted_by by_order xs);
  wf_buttonRef : buttonRef (hooks inst) = Some Button;
  wf_menuRef :
    menuRef (hooks inst)
    = if isMobileMenuOpen (hooks inst) then Some Drawer else None;
  wf_deps : effect_deps (hooks inst) = Some (isMobileMenuOpen (hooks inst));
  wf_effect :
    effect_agrees (isMobileMenuOpen (hooks inst))
                  (effect_cleanup (hooks inst)) (document w);
}.

Definition wf (w : World) : Prop :=
  match root w with
  | Some inst => wf_instance w inst
  | None => document w = []
  end.

(** The cells of the effect before it is flushed: either it never
    ran and nothing is registered, or it agrees with the table for
    the dependency it last ran with. *)
Definition effect_pending (hk : Hooks) (d : Listeners) : Prop :=
  (effect_deps hk = None /\ effect_cleanup hk = None /\ d = [])
  \/ exists deps, effect_deps hk = Some deps
                  /\ effect_agrees deps (effect_cleanup hk) d.

(** The value of [isMobileMenuOpen] after the handlers that [ev]
    triggers have run. *)
Definition requested (inst : Instance) (d : Listeners) (ev : Event) : bool :=
  foldl apply_callback (isMobileMenuOpen (hooks inst))
        (element_handlers (view inst) ev ++ document_handlers (hooks inst) d ev).

End Statements.

Import Statements.

(** * Properties *)

(** ** Validation of the catalog *)

Section SchemaFacts.
Import Schemas Constants.

Lemma check_nil (ok : bool) (message : string) :
  check ok message = [] <-> ok = true.
Proof. destruct ok; simpl; split; congruence. Qed.

Lemma finish_ok {A} (data : A) (issues : list string) :
  finish data issues = ParseOk data <-> issues = [].
Proof. destruct issues; simpl; split; congruence. Qed.

Lemma finish_throws {A} (data : A) (issues : list string) :
  throws (finish data issues) <-> issues ≠ [].
Proof.
  unfold throws. destruct issues as [|m ms]; simpl; split.
  - intros [? ?]. congruence.
  - congruence.
  - congruence.
  - intros _. eauto.
Qed.

Lemma min_length_1 (s : string) : min_length 1 s = true <-> s ≠ "".
Proof.
  unfold min_length. destruct s; simpl; split; intros; congruence || done.
Qed.

Lemma array_min_1 {A} (xs : list A) : array_min 1 xs = true <-> xs ≠ [].
Proof.
  unfold array_min. destruct xs; simpl; split; intros; congruence || done.
Qed.

(** A set built from a list never has more elements than the list,
    and has as many exactly when the list has no repetition. *)
Lemma size_list_to_set_le {A} {EqA : EqDecision A} {CntA : Countable A} (xs : list A) :
  (size (list_to_set xs : gset A) <= length xs)%nat.
Proof.
  induction xs as [|x xs IH];
    rewrite ?list_to_set_nil, ?list_to_set_cons; cbn [length].
  - rewrite size_empty. lia.
  - destruct (decide (x ∈ (list_to_set xs : gset A))) as [Hin|Hout].
    + assert ({[x]} ∪ list_to_set xs = (list_to_set xs : gset A)) as ->
        by (apply subseteq_union_1_L, singleton_subseteq_l; exact Hin).
      lia.
    + rewrite size_union by set_solver. rewrite size_singleton. lia.
Qed.

Lemma all_distinct_NoDup {A} {EqA : EqDecision A} {CntA : Countable A} (xs : list A) :
  all_distinct xs = true <-> NoDup xs.
Proof.
  unfold all_distinct. rewrite Nat.eqb_eq. split.
  - induction xs as [|x xs IH];
      rewrite ?list_to_set_nil, ?list_to_set_cons; cbn [length]; intros Hsize.
    + constructor.
    + destruct (decide (x ∈ (list_to_set xs : gset A))) as [Hin|Hout].
      * exfalso.
        assert ({[x]} ∪ list_to_set xs = (list_to_set xs : gset A)) as Heq
          by (apply subseteq_union_1_L, singleton_subseteq_l; exact Hin).
        rewrite Heq in Hsize.
        pose proof (size_list_to_set_le xs). lia.
      * rewrite size_union in Hsize by set_solver.
        rewrite size_singleton in Hsize.
        constructor; [set_solver | apply IH; lia].
  - apply size_list_to_set.
Qed.

Variable is_url : string -> bool.

Lemma NavigationLinkSchema_issues_nil (l : NavigationLink) :
  NavigationLinkSchema_issues is_url l = [] <-> link_rules is_url l.
Proof.
  unfold NavigationLinkSchema_issues, link_rules.
  rewrite !app_nil, !check_nil, !min_length_1, Z.leb_le.
  unfold is_safe_integer. rewrite andb_true_iff, !Z.leb_le.
  unfold MAX_SAFE_INTEGER.
  split; [intros (? & ? & ? & ? & ? & ?) | intros (? & ? & ? & ? & ?)];
    split_and!; try done; lia.
Qed.

Lemma NavigationLinkSchema_ok (l : NavigationLink) :
  NavigationLinkSchema is_url l = ParseOk l <-> link_rules is_url l.
Proof.
  unfold NavigationLinkSchema.
  rewrite finish_ok. apply NavigationLinkSchema_issues_nil.
Qed.

Lemma concat_nil_Forall {A} (xss : list (list A)) :
  concat xss = [] <-> Forall (fun xs => xs = []) xss.
Proof.
  induction xss as [|xs xss IH]; simpl.
  - split; [constructor | reflexivity].
  - rewrite app_nil, IH, Forall_cons. tauto.
Qed.

Lemma NavigationConfigSchema_issues_nil (c : NavigationConfig) :
  NavigationConfigSchema_issues is_url c = [] <->
  Forall (link_rules is_url) (links c) /\ links c ≠ []
  /\ NoDup (map id (links c)) /\ NoDup (map order (links c)).
Proof.
  unfold NavigationConfigSchema_issues.
  rewrite !app_nil, !check_nil, array_min_1, !all_distinct_NoDup.
  rewrite concat_nil_Forall, Forall_fmap.
  assert (Forall ((fun xs => xs = []) ∘ NavigationLinkSchema_issues is_url) (links c)
          <-> Forall (link_rules is_url) (links c)) as ->; [|tauto].
  apply Forall_iff. intros l. apply NavigationLinkSchema_issues_nil.
Qed.

Lemma NavigationConfigSchema_ok (c : NavigationConfig) :
  NavigationConfigSchema is_url c = ParseOk c <->
  Forall (link_rules is_url) (links c) /\ links c ≠ []
  /\ NoDup (map id (links c)) /\ NoDup (map order (links c)).
Proof.
  unfold NavigationConfigSchema.
  rewrite finish_ok. apply NavigationConfigSchema_issues_nil.
Qed.

Lemma NavigationConfigSchema_throws (c : NavigationConfig) :
  throws (NavigationConfigSchema is_url c) <->
  ~ (Forall (link_rules is_url) (links c) /\ links c ≠ []
     /\ NoDup (map id (links c)) /\ NoDup (map order (links c))).
Proof.
  unfold NavigationConfigSchema.
  rewrite finish_throws, NavigationConfigSchema_issues_nil. tauto.
Qed.

End SchemaFacts.

(** C1, as the code has it.  Loading the module with catalog [c]
    succeeds whenever [c] is non-empty, its ids are pairwise distinct,
    its orders are pairwise distinct and every link satisfies the rules
    of the link schema (non-empty id, label and href; an href that is
    an anchor, a path or a URL; an order that is a non-negative safe
    integer, that is one between 0 and 2^53 - 1).  Loading throws for
    every catalog that is empty, repeats an id or repeats an order. *)
Theorem module_load_catalog (is_url : string -> bool) (c : Schemas.NavigationConfig) :
  (Schemas.links c ≠ [] ->
   NoDup (map Schemas.id (Schemas.links c)) ->
   NoDup (map Schemas.order (Schemas.links c)) ->
   Forall (link_rules is_url) (Schemas.links c) ->
   Constants.module_load is_url c = ParseOk c)
  /\
  (Schemas.links c = []
   \/ ~ NoDup (map Schemas.id (Schemas.links c))
   \/ ~ NoDup (map Schemas.order (Schemas.links c)) ->
   throws (Constants.module_load is_url c)).
Proof.
  unfold Constants.module_load. split.
  - intros Hne Hid Hord Hrules. apply NavigationConfigSchema_ok. tauto.
  - intros Hbad. apply NavigationConfigSchema_throws. tauto.
Qed.

(** The catalog shipped with the site loads, and the empty catalog is
    refused. *)
Lemma module_load_catalog_witness :
  Constants.module_load (fun _ => false) Constants.NAV_LINKS
    = ParseOk Constants.NAV_LINKS
  /\ throws (Constants.module_load (fun _ => false) {| Schemas.links := [] |}).
Proof.
  split.
  - apply (module_load_catalog (fun _ => false) Constants.NAV_LINKS).
    + discriminate.
    + apply all_distinct_NoDup. vm_compute. reflexivity.
    + apply all_distinct_NoDup. vm_compute. reflexivity.
    + unfold MAX_SAFE_INTEGER.
      repeat constructor; simpl; try discriminate; lia.
  - apply (module_load_catalog (fun _ => false) {| Schemas.links := [] |}).
    left. reflexivity.
Defined.

(** C1 as stated does not hold: a catalog with one link whose label is
    empty is non-empty and has distinct ids and distinct orders, yet
    loading it throws, whatever the URL validator answers. *)
Lemma module_load_rejects_empty_label :
  let c := {| Schemas.links :=
                [ {| Schemas.id := "home"; Schemas.label := "";
                     Schemas.href := "/"; Schemas.action := Schemas.navigate;
                     Schemas.order := 0 |} ] |} in
  Schemas.links c ≠ []
  /\ NoDup (map Schemas.id (Schemas.links c))
  /\ NoDup (map Schemas.order (Schemas.links c))
  /\ Constants.module_load (fun _ => true) c
     = ZodError ["Link label cannot be empty"].
Proof.
  simpl. repeat split.
  - discriminate.
  - apply all_distinct_NoDup. vm_compute. reflexivity.
  - apply all_distinct_NoDup. vm_compute. reflexivity.
Qed.

(** An order just above the safe integers is refused, although it is
    a non-negative integer. *)
Example order_above_safe_integers_rejected (is_url : string -> bool) :
  success (Constants.module_load is_url
             {| Schemas.links :=
                  [ {| Schemas.id := "home"; Schemas.label := "Home";
                       Schemas.href := "/"; Schemas.action := Schemas.navigate;
                       Schemas.order := 2 ^ 53 |} ] |})
  = false
  /\ success (Constants.module_load is_url
                {| Schemas.links :=
                     [ {| Schemas.id := "home"; Schemas.label := "Home";
                          Schemas.href := "/"; Schemas.action := Schemas.navigate;
                          Schemas.order := 2 ^ 53 - 1 |} ] |})
     = true.
Proof. split; vm_compute; reflexivity. Qed.

(** ** The copyright line *)

(** C8.  [getCopyrightText()] returns the copyright sign, the decimal
    form of the year the clock shows at the call, and the owner name;
    nothing is remembered between calls, so a call made in 2024 and a
    call made in 2025 return the text of their own year. *)
Theorem getCopyrightText_current_year :
  (forall now : Constants.Date,
     Constants.getCopyrightText now
     = ParseOk ("© " +:+ Constants.Number_toString (Constants.getFullYear now)
                +:+ " Yarson"))
  /\ Constants.getCopyrightText {| Constants.getFullYear := 2024 |}
     = ParseOk "© 2024 Yarson"
  /\ Constants.getCopyrightText {| Constants.getFullYear := 2025 |}
     = ParseOk "© 2025 Yarson".
Proof.
  split; [|split]; reflexivity.
Qed.

(** ** Sorting by [order] *)

Section SortFacts.
Import Schemas Components.

Lemma insert_by_Permutation {A} (compareFn : A -> A -> Z) (x : A) (xs : list A) :
  Js.insert_by compareFn x xs ≡ₚ x :: xs.
Proof.
  induction xs as [|y ys IH]; simpl; [reflexivity|].
  destruct (compareFn x y <=? 0); [reflexivity|].
  rewrite IH. apply Permutation_swap.
Qed.

Lemma sorted_by_Permutation {A} (compareFn : A -> A -> Z) (xs : list A) :
  Js.sorted_by compareFn xs ≡ₚ xs.
Proof.
  induction xs as [|x xs IH]; simpl; [reflexivity|].
  rewrite insert_by_Permutation. by rewrite IH.
Qed.

Lemma insert_by_order_sorted (x : NavigationLink) (xs : list NavigationLink) :
  StronglySorted ascending xs ->
  StronglySorted ascending (Js.insert_by by_order x xs).
Proof.
  induction 1 as [|y ys Hsorted IH Hall]; simpl.
  - repeat constructor.
  - unfold by_order at 1. destruct (Z.leb_spec (order x - order y) 0) as [Hle|Hgt].
    + constructor; [by constructor|].
      constructor; [unfold ascending; lia|].
      eapply Forall_impl; [exact Hall|].
      unfold ascending. intros z Hz. lia.
    + constructor; [exact IH|].
      rewrite insert_by_Permutation.
      constructor; [unfold ascending; lia | exact Hall].
Qed.

Lemma sorted_by_order_sorted (xs : list NavigationLink) :
  StronglySorted ascending (Js.sorted_by by_order xs).
Proof.
  induction xs as [|x xs IH]; simpl; [constructor|].
  by apply insert_by_order_sorted.
Qed.

(** Stability: links that share an order keep the relative position
    they had in the input. *)
Lemma insert_by_order_stable (k : Z) (x : NavigationLink) (xs : list NavigationLink) :
  filter (fun l => order l = k) (Js.insert_by by_order x xs)
  = filter (fun l => order l = k) (x :: xs).
Proof.
  induction xs as [|y ys IH]; simpl; [reflexivity|].
  unfold by_order at 1. destruct (Z.leb_spec (order x - order y) 0) as [Hle|Hgt];
    [reflexivity|].
  rewrite (filter_cons _ y), IH, !(filter_cons _ x), !(filter_cons _ y).
  repeat case_decide; try reflexivity; lia.
Qed.

Lemma sorted_by_order_stable (k : Z) (xs : list NavigationLink) :
  filter (fun l => order l = k) (Js.sorted_by by_order xs)
  = filter (fun l => order l = k) xs.
Proof.
  induction xs as [|x xs IH]; simpl; [reflexivity|].
  rewrite insert_by_order_stable, !filter_cons, IH. reflexivity.
Qed.

(** A catalog that is already in display order is left as it is. *)
Lemma sorted_by_order_id (xs : list NavigationLink) :
  StronglySorted ascending xs -> Js.sorted_by by_order xs = xs.
Proof.
  induction 1 as [|x xs Hsorted IH Hall]; simpl; [reflexivity|].
  rewrite IH. destruct Hall as [|y ys Hxy _]; simpl; [reflexivity|].
  unfold by_order, ascending in *.
  destruct (Z.leb_spec (order x - order y) 0); [reflexivity | lia].
Qed.

(** The three properties determine the result: a list in ascending
    order that keeps, for every order value, the links with that value
    in the sequence they have in [xs] is the list computed by
    [sorted_by].  Any stable sort therefore returns the same array. *)
Lemma stable_ascending_unique (ys zs : list NavigationLink) :
  StronglySorted ascending ys ->
  StronglySorted ascending zs ->
  (forall k, filter (fun l => order l = k) ys = filter (fun l => order l = k) zs) ->
  ys = zs.
Proof.
  intros Hys. revert zs.
  induction Hys as [|y ys Hys IH Hy]; intros zs Hzs Hsame.
  - destruct zs as [|z zs]; [reflexivity|].
    specialize (Hsame (order z)).
    rewrite filter_nil, filter_cons_True in Hsame by reflexivity. discriminate.
  - destruct Hzs as [|z zs Hzs Hz].
    { specialize (Hsame (order y)).
      rewrite filter_nil, filter_cons_True in Hsame by reflexivity. discriminate. }
    assert (order y = order z) as Hkey.
    { destruct (Z.lt_trichotomy (order y) (order z)) as [Hlt | [Heq | Hgt]];
        [exfalso | exact Heq | exfalso].
      - specialize (Hsame (order y)).
        rewrite filter_cons_True, filter_cons_False in Hsame by (reflexivity || lia).
        assert (y ∈ filter (fun l => order l = order y) zs) as Hin
          by (rewrite <- Hsame; apply list_elem_of_here).
        apply list_elem_of_filter in Hin as [Heq Hin].
        rewrite Forall_forall in Hz. specialize (Hz y Hin).
        unfold ascending in Hz. lia.
      - specialize (Hsame (order z)).
        rewrite (filter_cons_True _ z), (filter_cons_False _ y) in Hsame
          by (reflexivity || lia).
        assert (z ∈ filter (fun l => order l = order z) ys) as Hin
          by (rewrite Hsame; apply list_elem_of_here).
        apply list_elem_of_filter in Hin as [Heq Hin].
        rewrite Forall_forall in Hy. specialize (Hy z Hin).
        unfold ascending in Hy. lia. }
    pose proof (Hsame (order y)) as Hhead.
    rewrite filter_cons_True, filter_cons_True in Hhead by (reflexivity || lia).
    injection Hhead as -> Htail. f_equal.
    apply IH; [exact Hzs|].
    intros k. specialize (Hsame k).
    rewrite !filter_cons in Hsame.
    destruct (decide (order z = k)); [|exact Hsame].
    by injection Hsame.
Qed.

Lemma sorted_by_order_unique (xs ys : list NavigationLink) :
  StronglySorted ascending ys ->
  (forall k, filter (fun l => order l = k) ys = filter (fun l => order l = k) xs) ->
  ys = Js.sorted_by by_order xs.
Proof.
  intros Hys Hstable.
  apply stable_ascending_unique; [exact Hys | apply sorted_by_order_sorted |].
  intros k. by rewrite Hstable, sorted_by_order_stable.
Qed.

End SortFacts.

(** ** Rendering over the heap *)

Section RenderFacts.
Import Schemas Constants Dom Components.

Implicit Types h : gmap Js.loc (list NavigationLink).
Implicit Types xs : list NavigationLink.

Lemma fresh_loc_unused h : h !! fresh (dom h) = None.
Proof. apply not_elem_of_dom, is_fresh. Qed.

Lemma insert_fresh_preserves h l xs ys :
  h !! l = Some xs -> <[fresh (dom h) := ys]> h !! l = Some xs.
Proof.
  intros Hl. rewrite lookup_insert_ne; [exact Hl|].
  intros Heq. rewrite <- Heq, fresh_loc_unused in Hl. discriminate.
Qed.

Lemma elements_spec h l xs :
  h !! l = Some xs -> Js.elements l h = Some (xs, h).
Proof. unfold Js.elements. by intros ->. Qed.

Lemma map_children_spec {B} h l xs (f : NavigationLink -> B) :
  h !! l = Some xs -> Js.map_children l f h = Some (map f xs, h).
Proof.
  intros Hl. unfold Js.map_children, Js.bind.
  by rewrite (elements_spec _ _ _ Hl).
Qed.

Lemma spread_spec h l xs :
  h !! l = Some xs ->
  Js.spread l h = Some (fresh (dom h), <[fresh (dom h) := xs]> h).
Proof.
  intros Hl. unfold Js.spread, Js.bind.
  by rewrite (elements_spec _ _ _ Hl).
Qed.

Lemma sort_spec h l xs (compareFn : NavigationLink -> NavigationLink -> Z) :
  h !! l = Some xs ->
  Js.sort l compareFn h = Some (l, <[l := Js.sorted_by compareFn xs]> h).
Proof.
  intros Hl. unfold Js.sort, Js.bind.
  by rewrite (elements_spec _ _ _ Hl).
Qed.

(** [[...links].sort(by_order)] allocates one array, holding the
    elements of [links] in display order, and writes nowhere else. *)
Lemma sorted_copy_spec h l xs :
  h !! l = Some xs ->
  Js.bind (Js.spread l) (fun copy => Js.sort copy by_order) h
  = Some (fresh (dom h), <[fresh (dom h) := Js.sorted_by by_order xs]> h).
Proof.
  intros Hl. unfold Js.bind. rewrite (spread_spec _ _ _ Hl).
  rewrite (sort_spec _ _ xs) by apply lookup_insert_eq.
  by rewrite insert_insert_eq.
Qed.

Lemma useMemo_sortedLinks_spec h l xs memo :
  h !! l = Some xs ->
  memo_ready h l xs memo ->
  exists value h',
    useMemo_sortedLinks l memo h = Some (value, h')
    /\ h' !! value = Some (Js.sorted_by by_order xs)
    /\ (h' = h \/ h' = <[fresh (dom h) := Js.sorted_by by_order xs]> h).
Proof.
  intros Hl [-> | (value & -> & Hvalue)]; unfold useMemo_sortedLinks.
  - rewrite (sorted_copy_spec _ _ _ Hl).
    eexists _, _. split; [reflexivity|]. split; [apply lookup_insert_eq | by right].
  - rewrite decide_True by reflexivity.
    eexists _, _. split; [reflexivity|]. split; [exact Hvalue | by left].
Qed.

Lemma Navigation_spec h p hk xs :
  h !! props_links p = Some xs ->
  memo_ready h (props_links p) xs (sortedLinks_memo hk) ->
  exists value h',
    Navigation p hk h
    = Some ((view_of p (isMobileMenuOpen hk) (Js.sorted_by by_order xs),
             with_memo (props_links p, value) hk), h')
    /\ h' !! value = Some (Js.sorted_by by_order xs)
    /\ (h' = h \/ h' = <[fresh (dom h) := Js.sorted_by by_order xs]> h).
Proof.
  intros Hl Hmemo.
  destruct (useMemo_sortedLinks_spec _ _ _ _ Hl Hmemo)
    as (value & h' & Hrun & Hvalue & Hh').
  exists value, h'. split; [|by split].
  unfold Navigation, Js.bind at 1. rewrite Hrun.
  unfold Js.bind at 1. rewrite (map_children_spec _ _ _ _ Hvalue).
  unfold view_of, drawer_of, with_memo, Js.ret.
  destruct (isMobileMenuOpen hk); unfold Js.bind.
  - by rewrite (map_children_spec _ _ _ _ Hvalue).
  - reflexivity.
Qed.

Lemma Footer_spec h l xs now :
  h !! l = Some xs ->
  Footer l now h
  = Some ({| footer_nav := {| nav_className := "mb-4";
                              nav_ariaLabel := "Footer navigation";
                              items := map link_item (Js.sorted_by by_order xs) |};
             copyright := "© " +:+ Number_toString (getFullYear now) +:+ " Yarson" |},
          <[fresh (dom h) := Js.sorted_by by_order xs]> h).
Proof.
  intros Hl. unfold Footer.
  unfold Js.bind at 1. rewrite (spread_spec _ _ _ Hl).
  unfold Js.bind at 1. rewrite (sort_spec _ _ xs) by apply lookup_insert_eq.
  rewrite insert_insert_eq.
  change (getCopyrightText now) with
    (ParseOk (A := string)
       ("© " +:+ Number_toString (getFullYear now) +:+ " Yarson")).
  unfold Js.bind, Js.ret.
  by rewrite (map_children_spec _ _ (Js.sorted_by by_order xs))
    by apply lookup_insert_eq.
Qed.

(** Neither render function writes to an array that exists when it
    is called: whatever the hook cells hold, a render that returns
    leaves every existing array as it was. *)
Lemma map_children_heap {B} h h' l (f : NavigationLink -> B) r :
  Js.map_children l f h = Some (r, h') -> h' = h.
Proof.
  unfold Js.map_children, Js.bind, Js.elements, Js.ret.
  destruct (h !! l); intros; by simplify_eq.
Qed.

Lemma sorted_copy_heap h h' l value :
  Js.bind (Js.spread l) (fun copy => Js.sort copy by_order) h = Some (value, h') ->
  exists xs, h !! l = Some xs
             /\ h' = <[fresh (dom h) := Js.sorted_by by_order xs]> h.
Proof.
  destruct (h !! l) as [xs|] eqn:Hl.
  - rewrite (sorted_copy_spec _ _ _ Hl). intros; simplify_eq. by exists xs.
  - unfold Js.bind, Js.spread, Js.bind, Js.elements. by rewrite Hl.
Qed.

Lemma useMemo_sortedLinks_heap h h' l memo value :
  useMemo_sortedLinks l memo h = Some (value, h') ->
  h' = h \/ exists ys, h' = <[fresh (dom h) := ys]> h.
Proof.
  unfold useMemo_sortedLinks. intros Hrun.
  destruct memo as [[dep cached]|]; [destruct (decide (dep = l))|].
  - unfold Js.ret in Hrun. simplify_eq. by left.
  - apply sorted_copy_heap in Hrun as (xs & _ & ->). right. by eexists.
  - apply sorted_copy_heap in Hrun as (xs & _ & ->). right. by eexists.
Qed.

Lemma Navigation_heap h h' p hk r :
  Navigation p hk h = Some (r, h') ->
  h' = h \/ exists ys, h' = <[fresh (dom h) := ys]> h.
Proof.
  unfold Navigation. unfold Js.bind at 1.
  destruct (useMemo_sortedLinks _ _ h) as [[value h1]|] eqn:Hmemo; [|done].
  apply useMemo_sortedLinks_heap in Hmemo.
  unfold Js.bind at 1.
  destruct (Js.map_children value link_item h1) as [[desktop_items h2]|] eqn:Hmap;
    [|done].
  apply map_children_heap in Hmap as ->.
  destruct (isMobileMenuOpen hk); unfold Js.bind, Js.ret.
  - destruct (Js.map_children value link_item h1) as [[drawer_items h3]|] eqn:Hmap;
      [|done].
    apply map_children_heap in Hmap as ->.
    intros; by simplify_eq.
  - intros; by simplify_eq.
Qed.

Lemma Footer_heap h h' l now r :
  Footer l now h = Some (r, h') ->
  exists ys, h' = <[fresh (dom h) := ys]> h.
Proof.
  destruct (h !! l) as [xs|] eqn:Hl.
  - rewrite (Footer_spec _ _ _ _ Hl). intros; simplify_eq. by eexists.
  - unfold Footer, Js.bind, Js.spread, Js.bind, Js.elements. by rewrite Hl.
Qed.

Lemma Navigation_preserves h h' p hk r l xs :
  Navigation p hk h = Some (r, h') -> h !! l = Some xs -> h' !! l = Some xs.
Proof.
  intros Hrender Hl.
  apply Navigation_heap in Hrender as [-> | (ys & ->)]; [exact Hl|].
  by apply insert_fresh_preserves.
Qed.

Lemma Footer_preserves h h' NAV_LINKS_links now r l xs :
  Footer NAV_LINKS_links now h = Some (r, h') ->
  h !! l = Some xs -> h' !! l = Some xs.
Proof.
  intros Hrender Hl.
  apply Footer_heap in Hrender as (ys & ->).
  by apply insert_fresh_preserves.
Qed.

End RenderFacts.

(** ** The life cycle keeps listeners and state in step *)

Section RuntimeFacts.
Import Schemas Constants Dom Components Runtime.

Variable follow : string -> Page -> Page.

Lemma wf_initial h p : wf (initial h p).
Proof. reflexivity. Qed.

Lemma run_cleanup_of (n : nat) : run_cleanup (cleanup_of n) (listeners_of n) = [].
Proof.
  unfold run_cleanup, removeEventListener, cleanup_of, listeners_of.
  cbn [cleanup_mousedown cleanup_keydown].
  rewrite filter_cons_False by (intros Hne; by apply Hne).
  rewrite filter_cons_True by discriminate.
  rewrite filter_nil, filter_cons_False by (intros Hne; by apply Hne).
  apply filter_nil.
Qed.

Lemma effect_closed (n : nat) (d : Listeners) : effect false n d = (d, None).
Proof. reflexivity. Qed.

Lemma effect_open (n : nat) :
  effect true n [] = (listeners_of n, Some (cleanup_of n)).
Proof.
  unfold effect. cbv beta iota zeta delta [negb].
  unfold addEventListener at 2.
  rewrite decide_False by apply not_elem_of_nil.
  unfold addEventListener.
  rewrite decide_False; [reflexivity|].
  rewrite app_nil_l, list_elem_of_singleton. congruence.
Qed.

Lemma flush_effect_spec (hk : Hooks) (d : Listeners) (n : nat) :
  effect_pending hk d ->
  exists hk' d' n',
    flush_effect hk d n = (hk', d', n')
    /\ isMobileMenuOpen hk' = isMobileMenuOpen hk
    /\ menuRef hk' = menuRef hk
    /\ buttonRef hk' = buttonRef hk
    /\ sortedLinks_memo hk' = sortedLinks_memo hk
    /\ effect_deps hk' = Some (isMobileMenuOpen hk)
    /\ effect_agrees (isMobileMenuOpen hk) (effect_cleanup hk') d'.
Proof.
  unfold flush_effect, effect_pending.
  intros [(Hdeps & Hcleanup & ->) | (deps & Hdeps & Hagrees)];
    rewrite Hdeps.
  - rewrite decide_False by discriminate. rewrite Hcleanup.
    destruct (isMobileMenuOpen hk) eqn:Hopen.
    + rewrite effect_open. eexists _, _, _. split; [reflexivity|].
      simpl. repeat split; try done. by exists n.
    + rewrite effect_closed. eexists _, _, _. split; [reflexivity|].
      simpl. by repeat split.
  - destruct (decide (Some deps = Some (isMobileMenuOpen hk))) as [Heq|Hne].
    + simplify_eq. eexists _, _, _. split; [reflexivity|].
      by repeat split.
    + destruct deps, (isMobileMenuOpen hk) eqn:Hopen; try done; simpl in Hagrees.
      * destruct Hagrees as (m & -> & ->). rewrite run_cleanup_of, effect_closed.
        eexists _, _, _. split; [reflexivity|]. simpl. by repeat split.
      * destruct Hagrees as (-> & ->). rewrite effect_open.
        eexists _, _, _. split; [reflexivity|].
        simpl. repeat split; try done. by exists n.
Qed.

Lemma render_and_commit_spec (w : World) (p : NavigationProps) (hk : Hooks)
    (xs : list NavigationLink) :
  heap w !! props_links p = Some xs ->
  memo_ready (heap w) (props_links p) xs (sortedLinks_memo hk) ->
  effect_pending hk (document w) ->
  exists w' inst',
    render_and_commit p hk w = Some w'
    /\ root w' = Some inst'
    /\ wf_instance w' inst'
    /\ props inst' = p
    /\ isMobileMenuOpen (hooks inst') = isMobileMenuOpen hk
    /\ page w' = page w
    /\ (forall l ys, heap w !! l = Some ys -> heap w' !! l = Some ys).
Proof.
  intros Hl Hmemo Hpending.
  destruct (Navigation_spec _ _ _ _ Hl Hmemo) as (value & h' & Hrender & Hvalue & Hh').
  set (sorted := Js.sorted_by by_order xs) in *.
  set (v := view_of p (isMobileMenuOpen hk) sorted) in *.
  set (hk1 := attach_refs v (with_memo (props_links p, value) hk)).
  destruct (flush_effect_spec hk1 (document w) (closures w) Hpending)
    as (hk2 & d2 & n2 & Hflush & Hopen & HmenuRef & HbuttonRef & Hmemo2 & Hdeps & Hagrees).
  assert (forall l ys, heap w !! l = Some ys -> h' !! l = Some ys) as Hgrow.
  { intros l ys Hys. destruct Hh' as [-> | ->]; [exact Hys|].
    by apply insert_fresh_preserves. }
  eexists _, _. split.
  { unfold render_and_commit. rewrite Hrender. fold hk1. rewrite Hflush. reflexivity. }
  split; [reflexivity|]. split; [|by repeat split].
  constructor; simpl.
  - exists xs, value. rewrite Hmemo2, Hopen. repeat split; try done.
    by apply Hgrow.
  - by rewrite HbuttonRef.
  - rewrite HmenuRef, Hopen. simpl. by destruct (isMobileMenuOpen hk).
  - by rewrite Hdeps, Hopen.
  - by rewrite Hopen.
Qed.

Lemma mount_spec (w : World) (p : NavigationProps) (xs : list NavigationLink) :
  root w = None ->
  document w = [] ->
  heap w !! props_links p = Some xs ->
  exists w' inst',
    mount p w = Some w'
    /\ root w' = Some inst'
    /\ wf_instance w' inst'
    /\ props inst' = p
    /\ isMobileMenuOpen (hooks inst') = false
    /\ page w' = page w
    /\ (forall l ys, heap w !! l = Some ys -> heap w' !! l = Some ys).
Proof.
  intros Hroot Hdoc Hl. unfold mount. rewrite Hroot.
  apply (render_and_commit_spec w p initial_hooks xs Hl).
  - by left.
  - left. by repeat split.
Qed.

Lemma dispatch_spec (w : World) (inst : Instance) (ev : Event) :
  root w = Some inst ->
  wf_instance w inst ->
  exists w' inst',
    dispatch follow ev w = Some w'
    /\ root w' = Some inst'
    /\ wf_instance w' inst'
    /\ props inst' = props inst
    /\ isMobileMenuOpen (hooks inst') = requested inst (document w) ev
    /\ page w' = default_action follow (view inst) ev (page w)
    /\ (forall l ys, heap w !! l = Some ys -> heap w' !! l = Some ys).
Proof.
  intros Hroot Hwf. unfold dispatch. rewrite Hroot. fold (requested inst (document w) ev).
  destruct Hwf as [(xs & value & Hl & Hmemo & Hvalue & Hview) HbRef HmRef Hdeps Hagrees].
  case_bool_decide as Hsame.
  - eexists _, inst. split; [reflexivity|]. split; [reflexivity|].
    split; [|by repeat split].
    constructor; simpl; try done. by exists xs, value.
  - set (w1 := {| heap := heap w; document := document w; root := Some inst;
                  closures := closures w;
                  page := default_action follow (view inst) ev (page w) |}).
    destruct (render_and_commit_spec w1 (props inst)
                (set_state (requested inst (document w) ev) (hooks inst)) xs)
      as (w' & inst' & Hrun & Hroot' & Hwf' & Hprops & Hopen & Hpage & Hgrow).
    + exact Hl.
    + right. by exists value.
    + right. exists (isMobileMenuOpen (hooks inst)). by split.
    + subst w1. simpl in *. exists w', inst'. by split_and!.
Qed.

Lemma unmount_spec (w : World) :
  wf w ->
  root (unmount w) = None
  /\ document (unmount w) = []
  /\ heap (unmount w) = heap w
  /\ page (unmount w) = page w.
Proof.
  unfold wf, unmount. destruct (root w) as [inst|] eqn:Hroot; [|by intros ->].
  intros [_ _ _ _ Hagrees]. simpl. repeat split.
  destruct (isMobileMenuOpen (hooks inst)); simpl in Hagrees.
  - destruct Hagrees as (n & -> & ->). apply run_cleanup_of.
  - by destruct Hagrees as (-> & ->).
Qed.

Lemma step_wf (s : Step) (w w' : World) :
  wf w -> step follow s w = Some w' -> wf w'.
Proof.
  intros Hwf Hstep. destruct s as [p|ev|]; simpl in Hstep.
  - unfold wf in Hwf. destruct (root w) as [inst|] eqn:Hroot.
    + unfold mount in Hstep. rewrite Hroot in Hstep. simplify_eq.
      unfold wf. by rewrite Hroot.
    + destruct (heap w !! props_links p) as [xs|] eqn:Hl.
      * destruct (mount_spec w p xs Hroot Hwf Hl)
          as (w1 & inst1 & Hrun & Hroot1 & Hwf1 & _).
        rewrite Hrun in Hstep. simplify_eq. unfold wf. by rewrite Hroot1.
      * exfalso. unfold mount in Hstep. rewrite Hroot in Hstep.
        unfold render_and_commit, Navigation, Js.bind at 1 in Hstep.
        unfold useMemo_sortedLinks in Hstep. simpl in Hstep.
        unfold Js.bind, Js.spread, Js.bind, Js.elements in Hstep.
        by rewrite Hl in Hstep.
  - unfold wf in Hwf. destruct (root w) as [inst|] eqn:Hroot.
    + destruct (dispatch_spec w inst ev Hroot Hwf)
        as (w1 & inst1 & Hrun & Hroot1 & Hwf1 & _).
      rewrite Hrun in Hstep. simplify_eq. unfold wf. by rewrite Hroot1.
    + unfold dispatch in Hstep. rewrite Hroot in Hstep. simplify_eq.
      unfold wf. by rewrite Hroot.
  - simplify_eq. destruct (unmount_spec w Hwf) as (Hroot & Hdoc & _).
    unfold wf. by rewrite Hroot.
Qed.

Lemma run_wf (steps : list Step) (w w' : World) :
  wf w -> run follow steps w = Some w' -> wf w'.
Proof.
  revert w. induction steps as [|s steps IH]; simpl; intros w Hwf Hrun.
  - by simplify_eq.
  - destruct (step follow s w) as [w1|] eqn:Hstep; [|done].
    eapply IH; [|exact Hrun]. by eapply step_wf.
Qed.

(** Every array of the heap keeps its elements along a run. *)
Lemma step_heap (s : Step) (w w' : World) :
  wf w -> step follow s w = Some w' ->
  forall l ys, heap w !! l = Some ys -> heap w' !! l = Some ys.
Proof.
  intros Hwf Hstep. destruct s as [p|ev|]; simpl in Hstep.
  - unfold mount in Hstep. destruct (root w) as [inst|] eqn:Hroot.
    + by simplify_eq.
    + unfold render_and_commit in Hstep.
      destruct (Navigation p initial_hooks (heap w)) as [[[v hk] h]|] eqn:Hrender;
        [|done].
      destruct (flush_effect _ _ _) as [[hk' d] n]. simplify_eq. simpl.
      intros l ys Hl.
      by eapply Navigation_preserves.
  - unfold wf in Hwf. destruct (root w) as [inst|] eqn:Hroot.
    + destruct (dispatch_spec w inst ev Hroot Hwf)
        as (w1 & inst1 & Hrun & _ & _ & _ & _ & _ & Hgrow).
      rewrite Hrun in Hstep. by simplify_eq.
    + unfold dispatch in Hstep. rewrite Hroot in Hstep. by simplify_eq.
  - simplify_eq. by destruct (unmount_spec w Hwf) as (_ & _ & -> & _).
Qed.

Lemma run_heap (steps : list Step) (w w' : World) :
  wf w -> run follow steps w = Some w' ->
  forall l ys, heap w !! l = Some ys -> heap w' !! l = Some ys.
Proof.
  revert w. induction steps as [|s steps IH]; simpl; intros w Hwf Hrun l ys Hl.
  - by simplify_eq.
  - destruct (step follow s w) as [w1|] eqn:Hstep; [|done].
    eapply IH; [by eapply step_wf | exact Hrun |].
    by eapply step_heap.
Qed.

(** What an event does to a reachable world with an open menu. *)
Lemma dispatch_open (w : World) (ev : Event) :
  wf w ->
  is_open w = true ->
  exists inst n w' inst',
    root w = Some inst
    /\ document w = listeners_of n
    /\ dispatch follow ev w = Some w'
    /\ root w' = Some inst'
    /\ is_open w'
       = foldl apply_callback true
           (element_handlers (view inst) ev
            ++ (if decide (mousedown = type ev)
                then handleClickOutside (Some Drawer) (Some Button) ev else [])
            ++ (if decide (keydown = type ev) then handleEscape ev else []))
    /\ page w' = default_action follow (view inst) ev (page w).
Proof.
  unfold wf, is_open. destruct (root w) as [inst|] eqn:Hroot; [|done].
  intros Hwf Hopen.
  destruct (dispatch_spec w inst ev Hroot Hwf)
    as (w' & inst' & Hrun & Hroot' & _ & _ & Hvalue & Hpage & _).
  destruct Hwf as [_ HbRef HmRef _ Hagrees].
  rewrite Hopen in HmRef, Hagrees. destruct Hagrees as (n & Hdoc & _).
  exists inst, n, w', inst'. split_and!; try done.
  rewrite Hroot', Hvalue. unfold requested. rewrite Hdoc, Hopen.
  unfold document_handlers, listeners_of, call. simpl.
  by rewrite HbRef, HmRef, app_nil_r.
Qed.

End RuntimeFacts.

(** ** The checks of the repository's test suite *)

Section TestSuite.
Import Schemas Constants Dom Components Runtime.

(** [tests/unit]: "enforces unique link IDs". *)
Example test_unique_ids (is_url : string -> bool) :
  success (NavigationConfigSchema is_url
             {| links := [ {| id := "home"; label := "Home"; href := "#";
                              action := navigate; order := 0 |};
                           {| id := "home"; label := "Home2"; href := "#";
                              action := navigate; order := 1 |} ] |})
  = false.
Proof. vm_compute. reflexivity. Qed.

(** [tests/unit]: "enforces unique link orders". *)
Example test_unique_orders (is_url : string -> bool) :
  success (NavigationConfigSchema is_url
             {| links := [ {| id := "home"; label := "Home"; href := "#";
                              action := navigate; order := 0 |};
                           {| id := "work"; label := "Work"; href := "#work";
                              action := navigate; order := 0 |} ] |})
  = false.
Proof. vm_compute. reflexivity. Qed.

(** [tests/unit]: "should render all links with correct labels and
    hrefs" and "should have navigation landmark with aria-label". *)
Example test_navigation_renders_links :
  exists w inst,
    mount Examples.header_props (initial Examples.catalog_heap Examples.home) = Some w
    /\ root w = Some inst
    /\ map (fun item => (children item, item_href item)) (items (desktop (view inst)))
       = map (fun link => (label link, href link)) (links NAV_LINKS)
    /\ drawer (view inst) = None
    /\ nav_ariaLabel (desktop (view inst)) = "Main navigation".
Proof.
  eexists _, _. split; [vm_compute; reflexivity|]. by split_and!.
Qed.

(** [Header] mounts the widget on the array of [NAV_LINKS]. *)
Example Header_mounts_Navigation (hk : Hooks) :
  Header Examples.NAV_LINKS_links hk = Navigation Examples.header_props hk.
Proof. reflexivity. Qed.

(** [tests/e2e]: "should display current year in footer copyright". *)
Example test_footer_copyright (now : Date) :
  exists footer h,
    Footer Examples.NAV_LINKS_links now Examples.catalog_heap = Some (footer, h)
    /\ copyright footer = "© " +:+ Number_toString (getFullYear now) +:+ " Yarson".
Proof.
  eexists _, _. split; [by apply Footer_spec|]. reflexivity.
Qed.

End TestSuite.

Section Claims.
Import Schemas Constants Dom Components Runtime.

(** C9.  Rendering leaves the catalog alone.  A render of
    [Navigation], with any hook cells, and a render of [Footer] leave
    every array that existed before the render with the elements it
    had, in the order it had them; this holds in particular for the
    array passed as [links] and for the array of [NAV_LINKS] that the
    footer reads, since the array that is sorted is a copy.  Both
    renders return when the array they are given exists. *)
Theorem render_preserves_catalog :
  (forall h h' p hk r,
     Navigation p hk h = Some (r, h') ->
     forall l xs, h !! l = Some xs -> h' !! l = Some xs)
  /\
  (forall h h' NAV_LINKS_links now r,
     Footer NAV_LINKS_links now h = Some (r, h') ->
     forall l xs, h !! l = Some xs -> h' !! l = Some xs)
  /\
  (forall h p xs now,
     h !! props_links p = Some xs ->
     exists r h' r' h'',
       Navigation p initial_hooks h = Some (r, h')
       /\ Footer (props_links p) now h' = Some (r', h'')
       /\ h'' !! props_links p = Some xs).
Proof.
  split; [|split].
  - intros h h' p hk r Hrender l xs Hl. by eapply Navigation_preserves.
  - intros h h' l0 now r Hrender l xs Hl. by eapply Footer_preserves.
  - intros h p xs now Hl.
    destruct (Navigation_spec h p initial_hooks xs Hl) as (value & h' & Hrender & _ & _);
      [by left|].
    assert (h' !! props_links p = Some xs) as Hl'
      by (by eapply Navigation_preserves).
    eexists _, h', _, _. split; [exact Hrender|].
    split; [apply (Footer_spec _ _ _ _ Hl')|].
    by apply insert_fresh_preserves.
Qed.

(** The catalog written in reverse order is still in reverse order
    after the header and the footer were rendered. *)
Lemma render_preserves_catalog_witness :
  exists r h' r' h'',
    Navigation Examples.header_props initial_hooks Examples.reversed_heap = Some (r, h')
    /\ Footer Examples.NAV_LINKS_links {| getFullYear := 2025 |} h' = Some (r', h'')
    /\ h'' !! Examples.NAV_LINKS_links = Some (rev (links NAV_LINKS)).
Proof.
  destruct (proj2 (proj2 render_preserves_catalog)
              Examples.reversed_heap Examples.header_props
              (rev (links NAV_LINKS)) {| getFullYear := 2025 |})
    as (r & h' & r' & h'' & Hnav & Hfooter & _); [reflexivity|].
  exists r, h', r', h''. split; [exact Hnav|]. split; [exact Hfooter|].
  eapply (proj1 (proj2 render_preserves_catalog)); [exact Hfooter|].
  eapply (proj1 render_preserves_catalog); [exact Hnav|].
  reflexivity.
Defined.

(** C5.  The listeners are held exactly while the menu is open.  After
    any sequence of mounts, events and unmounts, the listener table of
    the document holds the outside-press listener and the Escape
    listener of the latest effect run, and nothing else, if the widget
    is mounted with its menu open; it is empty if the menu is closed
    or the widget is unmounted; and unmounting at that point leaves it
    empty. *)
Theorem listeners_held_while_open (follow : string -> Page -> Page)
    (steps : list Step) (h : gmap Js.loc (list NavigationLink)) (pg : Page) (w : World) :
  run follow steps (initial h pg) = Some w ->
  (is_open w = true -> exists n, document w = listeners_of n)
  /\ (is_open w = false -> document w = [])
  /\ document (unmount w) = [].
Proof.
  intros Hrun.
  assert (wf w) as Hwf by (eapply run_wf; [apply wf_initial | exact Hrun]).
  split; [|split].
  - unfold is_open, wf in *. destruct (root w) as [inst|]; [|done].
    intros Hopen. destruct Hwf as [_ _ _ _ Hagrees]. rewrite Hopen in Hagrees.
    destruct Hagrees as (n & Hdoc & _). by exists n.
  - unfold is_open, wf in *. destruct (root w) as [inst|]; [|done].
    intros Hopen. destruct Hwf as [_ _ _ _ Hagrees]. rewrite Hopen in Hagrees.
    by destruct Hagrees.
  - by destruct (unmount_spec w Hwf) as (_ & Hdoc & _).
Qed.

(** After the toggle was pressed the two listeners are registered;
    unmounting removes them. *)
Lemma listeners_held_while_open_witness :
  exists w,
    run Examples.follow_href [Mount Examples.header_props; Dispatch Examples.press_toggle]
        (initial Examples.catalog_heap Examples.home) = Some w
    /\ is_open w = true
    /\ (exists n, document w = listeners_of n)
    /\ document (unmount w) = [].
Proof.
  assert (exists w,
             run Examples.follow_href
                 [Mount Examples.header_props; Dispatch Examples.press_toggle]
                 (initial Examples.catalog_heap Examples.home) = Some w
             /\ is_open w = true) as (w & Hrun & Hopen).
  { eexists. split; vm_compute; reflexivity. }
  exists w. split; [exact Hrun|]. split; [exact Hopen|].
  destruct (listeners_held_while_open _ _ _ _ _ Hrun) as (Hheld & _ & Hunmount).
  split; [by apply Hheld | exact Hunmount].
Defined.

(** C6, as the code has it.  While the menu is open, an Escape
    key-down event sets [isMobileMenuOpen] to false, whichever node it
    is aimed at. *)
Theorem escape_keydown_closes (follow : string -> Page -> Page)
    (steps : list Step) (h : gmap Js.loc (list NavigationLink)) (pg : Page)
    (w : World) (focus : Node) :
  run follow steps (initial h pg) = Some w ->
  is_open w = true ->
  exists w',
    dispatch follow {| type := keydown; target := focus; Dom.key := "Escape" |} w
    = Some w'
    /\ is_open w' = false.
Proof.
  intros Hrun Hopen.
  assert (wf w) as Hwf by (eapply run_wf; [apply wf_initial | exact Hrun]).
  destruct (dispatch_open follow w
              {| type := keydown; target := focus; Dom.key := "Escape" |} Hwf Hopen)
    as (inst & n & w' & inst' & _ & _ & Hdispatch & _ & Hvalue & _).
  exists w'. split; [exact Hdispatch|].
  rewrite Hvalue. reflexivity.
Qed.

(** Escape pressed while the focus is on a link of the open drawer. *)
Lemma escape_keydown_closes_witness :
  exists w w',
    run Examples.follow_href [Mount Examples.header_props; Dispatch Examples.press_toggle]
        (initial Examples.catalog_heap Examples.home) = Some w
    /\ is_open w = true
    /\ dispatch Examples.follow_href
         {| type := keydown; target := DrawerLink 2; Dom.key := "Escape" |} w
       = Some w'
    /\ is_open w' = false.
Proof.
  assert (exists w,
             run Examples.follow_href
                 [Mount Examples.header_props; Dispatch Examples.press_toggle]
                 (initial Examples.catalog_heap Examples.home) = Some w
             /\ is_open w = true) as (w & Hrun & Hopen).
  { eexists. split; vm_compute; reflexivity. }
  destruct (escape_keydown_closes _ _ _ _ _ (DrawerLink 2) Hrun Hopen)
    as (w' & Hdispatch & Hclosed).
  exists w, w'. by split_and!.
Defined.

(** C6 as stated does not hold: the widget listens for [keydown] only,
    so an Escape key-up event reaching the document while the menu is
    open leaves it open. *)
Lemma escape_keyup_leaves_open :
  exists w w',
    run Examples.follow_href [Mount Examples.header_props; Dispatch Examples.press_toggle]
        (initial Examples.catalog_heap Examples.home) = Some w
    /\ is_open w = true
    /\ dispatch Examples.follow_href
         {| type := keyup; target := Elsewhere; Dom.key := "Escape" |} w
       = Some w'
    /\ is_open w' = true.
Proof.
  eexists _, _. split; [vm_compute; reflexivity|].
  split; [reflexivity|].
  split; [vm_compute; reflexivity|].
  reflexivity.
Qed.

(** C7.  While the menu is open, a press ([mousedown]) on a node that
    lies neither in the toggle button nor in the drawer panel sets
    [isMobileMenuOpen] to false, and a press on a node inside the
    toggle button or inside the drawer panel leaves it true. *)
Theorem press_outside_closes (follow : string -> Page -> Page)
    (steps : list Step) (h : gmap Js.loc (list NavigationLink)) (pg : Page)
    (w : World) (t : Node) (k : string) :
  run follow steps (initial h pg) = Some w ->
  is_open w = true ->
  exists w',
    dispatch follow {| type := mousedown; target := t; Dom.key := k |} w = Some w'
    /\ (contains Button t = false -> contains Drawer t = false -> is_open w' = false)
    /\ (contains Button t = true \/ contains Drawer t = true -> is_open w' = true).
Proof.
  intros Hrun Hopen.
  assert (wf w) as Hwf by (eapply run_wf; [apply wf_initial | exact Hrun]).
  destruct (dispatch_open follow w
              {| type := mousedown; target := t; Dom.key := k |} Hwf Hopen)
    as (inst & n & w' & inst' & _ & _ & Hdispatch & _ & Hvalue & _).
  exists w'. split; [exact Hdispatch|].
  rewrite Hvalue. unfold handleClickOutside. simpl.
  split.
  - by intros -> ->.
  - intros [Hin | Hin]; rewrite Hin; simpl; rewrite ?andb_false_r; reflexivity.
Qed.

(** A press on the page body closes the open menu; a press on the icon
    inside the toggle button does not. *)
Lemma press_outside_closes_witness :
  exists w w1 w2,
    run Examples.follow_href [Mount Examples.header_props; Dispatch Examples.press_toggle]
        (initial Examples.catalog_heap Examples.home) = Some w
    /\ is_open w = true
    /\ dispatch Examples.follow_href
         {| type := mousedown; target := Elsewhere; Dom.key := "" |} w = Some w1
    /\ is_open w1 = false
    /\ dispatch Examples.follow_href
         {| type := mousedown; target := ButtonIcon; Dom.key := "" |} w = Some w2
    /\ is_open w2 = true.
Proof.
  assert (exists w,
             run Examples.follow_href
                 [Mount Examples.header_props; Dispatch Examples.press_toggle]
                 (initial Examples.catalog_heap Examples.home) = Some w
             /\ is_open w = true) as (w & Hrun & Hopen).
  { eexists. split; vm_compute; reflexivity. }
  destruct (press_outside_closes _ _ _ _ _ Elsewhere "" Hrun Hopen)
    as (w1 & Hdispatch1 & Hclosed & _).
  destruct (press_outside_closes _ _ _ _ _ ButtonIcon "" Hrun Hopen)
    as (w2 & Hdispatch2 & _ & Hkept).
  exists w, w1, w2. split_and!; try done.
  - by apply Hclosed.
  - apply Hkept. by left.
Defined.

Lemma labels_link_items (sorted : list NavigationLink) (cls aria : string) :
  labels {| nav_className := cls; nav_ariaLabel := aria;
            items := map link_item sorted |}
  = map label sorted.
Proof. unfold labels. simpl. by rewrite map_map. Qed.

(** C4.  The three lists show the same labels in the same order.
    Whenever the widget is mounted on the array of a catalog [xs], its
    inline list, its drawer list (while the menu is open) and the list
    of a footer rendered from the same array show the labels of one
    and the same sequence: a rearrangement of [xs] in ascending
    [order]. *)
Theorem renderings_agree (follow : string -> Page -> Page)
    (steps : list Step) (h : gmap Js.loc (list NavigationLink)) (pg : Page)
    (w : World) (inst : Instance) (now : Date) :
  run follow steps (initial h pg) = Some w ->
  root w = Some inst ->
  exists xs sorted footer h',
    heap w !! props_links (props inst) = Some xs
    /\ Footer (props_links (props inst)) now (heap w) = Some (footer, h')
    /\ sorted ≡ₚ xs
    /\ StronglySorted ascending sorted
    /\ labels (desktop (view inst)) = map label sorted
    /\ (isMobileMenuOpen (hooks inst) = true ->
        exists nav, drawer (view inst) = Some nav /\ labels nav = map label sorted)
    /\ labels (footer_nav footer) = map label sorted.
Proof.
  intros Hrun Hroot.
  assert (wf w) as Hwf by (eapply run_wf; [apply wf_initial | exact Hrun]).
  unfold wf in Hwf. rewrite Hroot in Hwf.
  destruct Hwf as [(xs & value & Hl & _ & _ & Hview) _ _ _ _].
  exists xs, (Js.sorted_by by_order xs). eexists _, _.
  split; [exact Hl|].
  split; [apply (Footer_spec _ _ _ _ Hl)|].
  split; [apply sorted_by_Permutation|].
  split; [apply sorted_by_order_sorted|].
  rewrite Hview. split_and!.
  - apply labels_link_items.
  - intros ->. eexists. split; [reflexivity|]. apply labels_link_items.
  - apply labels_link_items.
Qed.

(** The catalog written in reverse order is shown as Home, Work,
    About, Contact by the header, the open drawer and the footer. *)
Lemma renderings_agree_witness :
  exists w inst footer h' nav,
    run Examples.follow_href [Mount Examples.header_props; Dispatch Examples.press_toggle]
        (initial Examples.reversed_heap Examples.home) = Some w
    /\ root w = Some inst
    /\ Footer Examples.NAV_LINKS_links {| getFullYear := 2025 |} (heap w)
       = Some (footer, h')
    /\ drawer (view inst) = Some nav
    /\ labels (desktop (view inst)) = ["Home"; "Work"; "About"; "Contact"]
    /\ labels nav = labels (desktop (view inst))
    /\ labels (footer_nav footer) = labels (desktop (view inst)).
Proof.
  assert (exists w inst,
             run Examples.follow_href
                 [Mount Examples.header_props; Dispatch Examples.press_toggle]
                 (initial Examples.reversed_heap Examples.home) = Some w
             /\ root w = Some inst
             /\ props_links (props inst) = Examples.NAV_LINKS_links
             /\ isMobileMenuOpen (hooks inst) = true
             /\ labels (desktop (view inst)) = ["Home"; "Work"; "About"; "Contact"])
    as (w & inst & Hrun & Hroot & Hprops & Hopen & Hshown).
  { eexists _, _. split; [vm_compute; reflexivity|]. by split_and!. }
  destruct (renderings_agree _ _ _ _ _ _ {| getFullYear := 2025 |} Hrun Hroot)
    as (xs & sorted & footer & h' & _ & Hfooter & _ & _ & Hdesktop & Hdrawer & Hlist).
  destruct (Hdrawer Hopen) as (nav & Hnav & Hlabels).
  rewrite Hprops in Hfooter.
  exists w, inst, footer, h', nav. split_and!; try done; congruence.
Defined.

(** C10.  An empty [links] array does not make the widget throw.
    Mounting it returns and shows an inline list without entries and
    no drawer; pressing the toggle returns as well and shows, next to
    the empty inline list, a drawer whose list has no entries. *)
Theorem empty_links_render (follow : string -> Page -> Page)
    (h : gmap Js.loc (list NavigationLink)) (pg : Page) (p : NavigationProps) :
  h !! props_links p = Some [] ->
  exists w1 inst1 w2 inst2 nav,
    mount p (initial h pg) = Some w1
    /\ root w1 = Some inst1
    /\ items (desktop (view inst1)) = []
    /\ drawer (view inst1) = None
    /\ dispatch follow Examples.press_toggle w1 = Some w2
    /\ root w2 = Some inst2
    /\ items (desktop (view inst2)) = []
    /\ drawer (view inst2) = Some nav
    /\ nav_ariaLabel nav = "Mobile navigation"
    /\ items nav = [].
Proof.
  intros Hl.
  destruct (mount_spec (initial h pg) p [] eq_refl eq_refl Hl)
    as (w1 & inst1 & Hmount & Hroot1 & Hwf1 & Hprops1 & Hclosed & _ & Hgrow1).
  destruct (dispatch_spec follow w1 inst1 Examples.press_toggle Hroot1 Hwf1)
    as (w2 & inst2 & Hdispatch & Hroot2 & Hwf2 & Hprops2 & Hvalue & _ & Hgrow2).
  destruct Hwf1 as [(xs1 & value1 & Hl1 & _ & _ & Hview1) _ _ _ Hagrees1].
  destruct Hwf2 as [(xs2 & value2 & Hl2 & _ & _ & Hview2) _ _ _ _].
  rewrite Hclosed in Hagrees1. destruct Hagrees1 as (Hdoc1 & _).
  assert (xs1 = []) as ->.
  { apply Hgrow1 in Hl. rewrite Hprops1 in Hl1. simpl in *. congruence. }
  assert (xs2 = []) as ->.
  { apply Hgrow1, Hgrow2 in Hl. rewrite Hprops2, Hprops1 in Hl2. simpl in *. congruence. }
  assert (isMobileMenuOpen (hooks inst2) = true) as Hopen.
  { rewrite Hvalue. unfold requested. by rewrite Hdoc1, Hview1, Hclosed. }
  rewrite Hclosed in Hview1. rewrite Hopen in Hview2.
  eexists w1, inst1, w2, inst2, _.
  split_and!; try done; by rewrite ?Hview1, ?Hview2.
Qed.

(** The header mounted on an empty array. *)
Lemma empty_links_render_witness :
  exists w1 inst1 w2 inst2 nav,
    mount Examples.header_props (initial Examples.empty_heap Examples.home) = Some w1
    /\ root w1 = Some inst1
    /\ items (desktop (view inst1)) = []
    /\ drawer (view inst1) = None
    /\ dispatch Examples.follow_href Examples.press_toggle w1 = Some w2
    /\ root w2 = Some inst2
    /\ items (desktop (view inst2)) = []
    /\ drawer (view inst2) = Some nav
    /\ nav_ariaLabel nav = "Mobile navigation"
    /\ items nav = [].
Proof.
  apply (empty_links_render Examples.follow_href Examples.empty_heap Examples.home
           Examples.header_props).
  reflexivity.
Defined.

(** C2 does not hold of the code; this is what happens instead.  The
    rendered links carry no click handler and the [action] tag is
    never consulted.  For a
    catalog made of one link tagged [scroll_to_top], activating the
    link in the inline list, and activating it in the open drawer,
    is left to the browser: the page afterwards is the one obtained by
    following the link's [href], and nothing else was done to it. *)
Theorem scroll_to_top_link_is_followed (follow : string -> Page -> Page)
    (link_id link_label link_href : string) (link_order : Z) (pg : Page) :
  let link := {| id := link_id; label := link_label; href := link_href;
                 action := scroll_to_top; order := link_order |} in
  let h := {[ Examples.NAV_LINKS_links := [link] ]} in
  exists w1 w2 w3 w4,
    mount Examples.header_props (initial h pg) = Some w1
    /\ dispatch follow {| type := click; target := DesktopLink 0; Dom.key := "" |} w1
       = Some w2
    /\ page w2 = follow link_href pg
    /\ dispatch follow Examples.press_toggle w1 = Some w3
    /\ is_open w3 = true
    /\ dispatch follow {| type := click; target := DrawerLink 0; Dom.key := "" |} w3
       = Some w4
    /\ page w4 = follow link_href pg.
Proof.
  intros link h. eexists _, _, _, _.
  split; [vm_compute; reflexivity|].
  split; [vm_compute; reflexivity|].
  split; [reflexivity|].
  split; [vm_compute; reflexivity|].
  split; [reflexivity|].
  split; [vm_compute; reflexivity|].
  reflexivity.
Qed.

(** C3 does not hold of the code; this is what happens instead.  For
    a catalog made of one link tagged [placeholder], activating the
    link inside the open drawer leaves [isMobileMenuOpen] true, with
    both listeners still registered, and the click is left to the
    browser, which follows the link's [href]. *)
Theorem placeholder_drawer_link_leaves_menu_open (follow : string -> Page -> Page)
    (link_id link_label link_href : string) (link_order : Z) (pg : Page) :
  let link := {| id := link_id; label := link_label; href := link_href;
                 action := placeholder; order := link_order |} in
  let h := {[ Examples.NAV_LINKS_links := [link] ]} in
  exists w1 w2,
    run follow [Mount Examples.header_props; Dispatch Examples.press_toggle]
        (initial h pg) = Some w1
    /\ is_open w1 = true
    /\ dispatch follow {| type := click; target := DrawerLink 0; Dom.key := "" |} w1
       = Some w2
    /\ is_open w2 = true
    /\ document w2 = document w1
    /\ page w2 = follow link_href pg.
Proof.
  intros link h. eexists _, _.
  split; [vm_compute; reflexivity|].
  split; [reflexivity|].
  split; [vm_compute; reflexivity|].
  by split_and!.
Qed.

End Claims.


(** * Further properties of the widget, the footer and the schemas *)

Section MoreFacts.
Import Schemas Constants Dom Components Runtime.

Variable follow : string -> Page -> Page.

Lemma map_fmap {A B} (f : A -> B) (l : list A) : map f l = f <$> l.
Proof. induction l as [|x l IH]; simpl; [reflexivity | by rewrite IH]. Qed.

Lemma NoDup_map_eq {A B} (f : A -> B) (l : list A) (x y : A) :
  NoDup (map f l) -> x ∈ l -> y ∈ l -> f x = f y -> x = y.
Proof.
  rewrite map_fmap.
  induction l as [|a l IH]; [by intros _ ?%elem_of_nil|].
  rewrite fmap_cons, NoDup_cons, !elem_of_cons.
  intros [Hfresh Hrest] [-> | Hx] [-> | Hy] Heq; try reflexivity.
  - exfalso. apply Hfresh. rewrite Heq. by apply list_elem_of_fmap_2.
  - exfalso. apply Hfresh. rewrite <- Heq. by apply list_elem_of_fmap_2.
  - by apply IH.
Qed.

(** No rendered link carries a click handler. *)
Lemma link_items_onClick (sorted : list NavigationLink) (item : LinkItem) :
  item ∈ map link_item sorted -> item_onClick item = None.
Proof.
  rewrite map_fmap. intros (l & -> & _)%list_elem_of_fmap. reflexivity.
Qed.

Lemma link_at_view_of (p : NavigationProps) (o : bool) (sorted : list NavigationLink)
    (t : Node) (item : LinkItem) :
  link_at (view_of p o sorted) t = Some item -> item_onClick item = None.
Proof.
  unfold link_at, view_of, drawer_of. destruct t; simpl; try done.
  - intros Hi. eapply link_items_onClick, list_elem_of_lookup_2, Hi.
  - destruct o; [|done]. simpl.
    intros Hi. eapply link_items_onClick, list_elem_of_lookup_2, Hi.
Qed.

Lemma element_handlers_view_of (p : NavigationProps) (o : bool)
    (sorted : list NavigationLink) (ev : Event) :
  element_handlers (view_of p o sorted) ev
  = match type ev with
    | click =>
        if contains Button (target ev) then [setIsMobileMenuOpen (negb o)] else []
    | _ => []
    end.
Proof.
  unfold element_handlers. destruct (type ev); try reflexivity.
  destruct (link_at _ _) as [item|] eqn:Hitem.
  - rewrite (link_at_view_of _ _ _ _ _ Hitem). simpl. by rewrite app_nil_r.
  - by rewrite app_nil_r.
Qed.

(** A render that finds its memo cell filled for the same array
    allocates nothing. *)
Lemma Navigation_memo_hit (h h' : gmap Js.loc (list NavigationLink))
    (p : NavigationProps) (hk : Hooks) (value : Js.loc) r :
  sortedLinks_memo hk = Some (props_links p, value) ->
  Navigation p hk h = Some (r, h') -> h' = h.
Proof.
  intros Hmemo. unfold Navigation, Js.bind at 1.
  unfold useMemo_sortedLinks. rewrite Hmemo, decide_True by reflexivity.
  unfold Js.ret at 1. unfold Js.bind at 1.
  destruct (Js.map_children value link_item h) as [[desktop_items h2]|] eqn:Hmap;
    [|done].
  apply map_children_heap in Hmap as ->.
  destruct (isMobileMenuOpen hk); unfold Js.bind, Js.ret.
  - destruct (Js.map_children value link_item h) as [[drawer_items h3]|] eqn:Hmap;
      [|done].
    apply map_children_heap in Hmap as ->.
    intros; by simplify_eq.
  - intros; by simplify_eq.
Qed.

Lemma reachable_mounted (steps : list Step) (h : gmap Js.loc (list NavigationLink))
    (pg : Page) (w : World) (inst : Instance) :
  run follow steps (initial h pg) = Some w ->
  root w = Some inst ->
  wf_instance w inst.
Proof.
  intros Hrun Hroot.
  assert (wf w) as Hwf by (eapply run_wf; [apply wf_initial | exact Hrun]).
  unfold wf in Hwf. by rewrite Hroot in Hwf.
Qed.

(** The state after an event, case by case. *)
Lemma requested_cases (w : World) (inst : Instance) (ev : Event) :
  wf_instance w inst ->
  requested inst (document w) ev
  = match type ev with
    | click =>
        if contains Button (target ev)
        then negb (isMobileMenuOpen (hooks inst))
        else isMobileMenuOpen (hooks inst)
    | mousedown =>
        isMobileMenuOpen (hooks inst)
        && (contains Drawer (target ev) || contains Button (target ev))
    | keydown =>
        isMobileMenuOpen (hooks inst) && negb (String.eqb (Dom.key ev) "Escape")
    | keyup => isMobileMenuOpen (hooks inst)
    end.
Proof.
  intros [(xs & value & _ & _ & _ & Hview) HbRef HmRef _ Hagrees].
  unfold requested. rewrite Hview, element_handlers_view_of.
  unfold document_handlers, call.
  destruct (isMobileMenuOpen (hooks inst)) eqn:Hopen; simpl in Hagrees.
  - destruct Hagrees as (n & -> & _). unfold listeners_of.
    cbn -[String.eqb contains]. rewrite HbRef, HmRef.
    destruct ev as [ty t k]. unfold handleClickOutside, handleEscape.
    destruct ty; cbn -[String.eqb contains].
    + by destruct (contains Drawer t), (contains Button t).
    + by destruct (String.eqb k "Escape").
    + reflexivity.
    + by destruct (contains Button t).
  - destruct Hagrees as (-> & _). cbn -[String.eqb contains]. rewrite app_nil_r.
    destruct (type ev); try reflexivity.
    by destruct (contains Button (target ev)).
Qed.

Lemma dispatch_heap (w w' : World) (inst : Instance) (ev : Event) :
  root w = Some inst ->
  wf_instance w inst ->
  dispatch follow ev w = Some w' ->
  heap w' = heap w.
Proof.
  intros Hroot [(xs & value & _ & Hmemo & _ & _) _ _ _ _].
  unfold dispatch. rewrite Hroot.
  case_bool_decide; [intros; by simplify_eq|].
  unfold render_and_commit. simpl.
  destruct (Navigation _ _ _) as [[[v hk] h1]|] eqn:Hrender; [|done].
  apply (Navigation_memo_hit _ _ _ _ value) in Hrender as ->; [|exact Hmemo].
  destruct (flush_effect _ _ _) as [[hk' d] n]. intros; by simplify_eq.
Qed.

(** What an event does to a mounted widget that was reached from the
    initial world. *)
Lemma dispatch_reachable (w : World) (inst : Instance) (ev : Event) :
  root w = Some inst ->
  wf_instance w inst ->
  exists w' inst',
    dispatch follow ev w = Some w'
    /\ root w' = Some inst'
    /\ wf_instance w' inst'
    /\ props inst' = props inst
    /\ heap w' = heap w
    /\ page w' = default_action follow (view inst) ev (page w)
    /\ is_open w'
       = match type ev with
         | click =>
             if contains Button (target ev) then negb (is_open w) else is_open w
         | mousedown =>
             is_open w && (contains Drawer (target ev) || contains Button (target ev))
         | keydown => is_open w && negb (String.eqb (Dom.key ev) "Escape")
         | keyup => is_open w
         end.
Proof.
  intros Hroot Hwf.
  destruct (dispatch_spec follow w inst ev Hroot Hwf)
    as (w' & inst' & Hrun & Hroot' & Hwf' & Hprops & Hvalue & Hpage & _).
  exists w', inst'. split_and!; try done.
  - by eapply dispatch_heap.
  - unfold is_open. rewrite Hroot, Hroot', Hvalue. by apply requested_cases.
Qed.

End MoreFacts.

Section CopyrightFacts.
Import Schemas Constants.

Lemma string_length_app (s t : string) :
  String.length (s +:+ t) = (String.length s + String.length t)%nat.
Proof. induction s as [|a s IH]; simpl; [reflexivity | by rewrite IH]. Qed.

Lemma string_app_inj_r (s1 s2 t : string) : s1 +:+ t = s2 +:+ t -> s1 = s2.
Proof.
  revert s2. induction s1 as [|a s1 IH]; intros [|b s2] Heq.
  - reflexivity.
  - apply (f_equal String.length) in Heq.
    rewrite !string_length_app in Heq. simpl in Heq. lia.
  - apply (f_equal String.length) in Heq.
    rewrite !string_length_app in Heq. simpl in Heq. lia.
  - change (String a (s1 +:+ t) = String b (s2 +:+ t)) in Heq.
    injection Heq as -> Heq. f_equal. by apply IH.
Qed.

(** The decimal numeral of an integer can be read back. *)
Lemma Number_toString_parse (n : Z) :
  NilZero.int_of_string (Number_toString n) = Some (Z.to_int n).
Proof.
  unfold Number_toString. apply NilZero.isi.
  - destruct n as [|p|p]; simpl; try discriminate.
    intros [= Hnil]. by apply (DecimalPos.Unsigned.to_uint_nonnil p).
  - destruct n as [|p|p]; simpl; try discriminate.
    intros [= Hnil]. by apply (DecimalPos.Unsigned.to_uint_nonnil p).
Qed.

Lemma Number_toString_inj (n m : Z) :
  Number_toString n = Number_toString m -> n = m.
Proof.
  intros Heq. apply DecimalZ.to_int_inj.
  pose proof (Number_toString_parse n) as Hn.
  rewrite Heq, Number_toString_parse in Hn. congruence.
Qed.

End CopyrightFacts.

Section OrderFacts.
Import Schemas Components.

(** With pairwise distinct orders the display order does not depend
    on the order in which the links were written. *)
Lemma sorted_by_order_Permutation (xs ys : list NavigationLink) :
  xs ≡ₚ ys ->
  NoDup (map order xs) ->
  Js.sorted_by by_order xs = Js.sorted_by by_order ys.
Proof.
  intros Hperm Hdistinct.
  apply (StronglySorted_unique_strong ascending).
  - intros x1 x2 Hx1 Hx2 H12 H21.
    rewrite sorted_by_Permutation in Hx1, Hx2. rewrite <- ?Hperm in Hx2.
    apply (NoDup_map_eq order xs); try done.
    unfold ascending in *. lia.
  - apply sorted_by_order_sorted.
  - apply sorted_by_order_sorted.
  - by rewrite !sorted_by_Permutation.
Qed.

End OrderFacts.

Section Extras.
Import Schemas Constants Dom Components Runtime.

(** X1.  The catalog schema accepts a catalog exactly when every link
    satisfies the link rules (non-empty id, label and href; an href
    that is an anchor, a path or a URL; an order between 0 and
    2^53 - 1), the catalog is non-empty, the ids are pairwise distinct
    and the orders are pairwise distinct; it throws exactly when one
    of these fails; and when it accepts, it returns the catalog it was
    given. *)
Theorem catalog_accepted_exactly (is_url : string -> bool) (c : NavigationConfig) :
  let valid :=
    Forall (link_rules is_url) (links c) /\ links c ≠ []
    /\ NoDup (map id (links c)) /\ NoDup (map order (links c)) in
  (NavigationConfigSchema is_url c = ParseOk c <-> valid)
  /\ (throws (NavigationConfigSchema is_url c) <-> ~ valid)
  /\ (forall data, NavigationConfigSchema is_url c = ParseOk data -> data = c).
Proof.
  split; [apply NavigationConfigSchema_ok|].
  split; [apply NavigationConfigSchema_throws|].
  unfold NavigationConfigSchema, finish. intros data.
  destruct (NavigationConfigSchema_issues is_url c); congruence.
Qed.

(** X2.  The test [new Set(xs).size === xs.length] of the two
    refinements is true exactly for the lists without repetition. *)
Theorem set_size_test_detects_duplicates {A} {EqA : EqDecision A} {CntA : Countable A}
    (xs : list A) :
  all_distinct xs = true <-> NoDup xs.
Proof. apply all_distinct_NoDup. Qed.

(** X3.  Activating the toggle (a click on the button or on its icon)
    inverts [isMobileMenuOpen]; activating it a second time restores
    the value it had. *)
Theorem toggle_flips (follow : string -> Page -> Page)
    (steps : list Step) (h : gmap Js.loc (list NavigationLink)) (pg : Page)
    (w : World) (inst : Instance) (t : Node) (k : string) :
  run follow steps (initial h pg) = Some w ->
  root w = Some inst ->
  contains Button t = true ->
  exists w1 w2,
    dispatch follow {| type := click; target := t; Dom.key := k |} w = Some w1
    /\ is_open w1 = negb (is_open w)
    /\ dispatch follow {| type := click; target := t; Dom.key := k |} w1 = Some w2
    /\ is_open w2 = is_open w.
Proof.
  intros Hrun Hroot Hin.
  pose proof (reachable_mounted follow _ _ _ _ _ Hrun Hroot) as Hwf.
  destruct (dispatch_reachable follow w inst
              {| type := click; target := t; Dom.key := k |} Hroot Hwf)
    as (w1 & inst1 & Hrun1 & Hroot1 & Hwf1 & _ & _ & _ & Hopen1).
  destruct (dispatch_reachable follow w1 inst1
              {| type := click; target := t; Dom.key := k |} Hroot1 Hwf1)
    as (w2 & inst2 & Hrun2 & _ & _ & _ & _ & _ & Hopen2).
  cbn -[contains] in Hopen1, Hopen2. rewrite Hin in Hopen1, Hopen2.
  exists w1, w2. split_and!; try done.
  rewrite Hopen2, Hopen1. apply negb_involutive.
Qed.

Lemma toggle_flips_witness :
  exists w w1 w2,
    run Examples.follow_href [Mount Examples.header_props]
        (initial Examples.catalog_heap Examples.home) = Some w
    /\ is_open w = false
    /\ dispatch Examples.follow_href
         {| type := click; target := ButtonIcon; Dom.key := "" |} w = Some w1
    /\ is_open w1 = true
    /\ dispatch Examples.follow_href
         {| type := click; target := ButtonIcon; Dom.key := "" |} w1 = Some w2
    /\ is_open w2 = false.
Proof.
  assert (exists w inst,
             run Examples.follow_href [Mount Examples.header_props]
                 (initial Examples.catalog_heap Examples.home) = Some w
             /\ root w = Some inst
             /\ is_open w = false) as (w & inst & Hrun & Hroot & Hclosed).
  { eexists _, _. split; [vm_compute; reflexivity|]. by split. }
  destruct (toggle_flips _ _ _ _ _ _ ButtonIcon "" Hrun Hroot eq_refl)
    as (w1 & w2 & Hrun1 & Hopen1 & Hrun2 & Hopen2).
  exists w, w1, w2. rewrite Hclosed in Hopen1, Hopen2. by split_and!.
Defined.

(** X4.  What the rendered tree says about the state.  In every world
    reached from the initial one, the [aria-expanded] attribute of the
    toggle equals [isMobileMenuOpen] and its label is "Toggle menu";
    the drawer is rendered, under the name "Mobile navigation", when
    the menu is open and is absent when it is closed; the inline list
    bears the [ariaLabel] prop or, without one, "Main navigation". *)
Theorem toggle_reports_state (follow : string -> Page -> Page)
    (steps : list Step) (h : gmap Js.loc (list NavigationLink)) (pg : Page)
    (w : World) (inst : Instance) :
  run follow steps (initial h pg) = Some w ->
  root w = Some inst ->
  ariaExpanded (hamburger (view inst)) = is_open w
  /\ button_ariaLabel (hamburger (view inst)) = "Toggle menu"
  /\ (is_open w = true ->
      exists nav, drawer (view inst) = Some nav
                  /\ nav_ariaLabel nav = "Mobile navigation")
  /\ (is_open w = false -> drawer (view inst) = None)
  /\ nav_ariaLabel (desktop (view inst))
     = default "Main navigation" (ariaLabel (props inst)).
Proof.
  intros Hrun Hroot.
  destruct (reachable_mounted follow _ _ _ _ _ Hrun Hroot)
    as [(xs & value & _ & _ & _ & Hview) _ _ _ _].
  unfold is_open. rewrite Hroot, Hview. simpl. split_and!; try done.
  - intros ->. by eexists.
  - by intros ->.
Qed.

Lemma toggle_reports_state_witness :
  exists w inst nav,
    run Examples.follow_href [Mount Examples.header_props; Dispatch Examples.press_toggle]
        (initial Examples.catalog_heap Examples.home) = Some w
    /\ root w = Some inst
    /\ ariaExpanded (hamburger (view inst)) = true
    /\ drawer (view inst) = Some nav
    /\ nav_ariaLabel nav = "Mobile navigation"
    /\ nav_ariaLabel (desktop (view inst)) = "Main navigation".
Proof.
  assert (exists w inst,
             run Examples.follow_href
                 [Mount Examples.header_props; Dispatch Examples.press_toggle]
                 (initial Examples.catalog_heap Examples.home) = Some w
             /\ root w = Some inst
             /\ is_open w = true
             /\ ariaLabel (props inst) = Some "Main navigation")
    as (w & inst & Hrun & Hroot & Hopen & Hlabel).
  { eexists _, _. split; [vm_compute; reflexivity|]. by split_and!. }
  destruct (toggle_reports_state _ _ _ _ _ _ Hrun Hroot)
    as (Hexpanded & _ & Hdrawer & _ & Hdesktop).
  destruct (Hdrawer Hopen) as (nav & Hnav & Hname).
  exists w, inst, nav. rewrite Hopen in Hexpanded. rewrite Hlabel in Hdesktop.
  by split_and!.
Defined.

(** X5.  The transitions of the menu.  For a mounted widget reached
    from the initial world, every event is handled without error and
    changes [isMobileMenuOpen] as follows: a click inside the toggle
    inverts it; a [mousedown] keeps it only if the menu is open and the
    target lies inside the drawer or the toggle; a [keydown] keeps it
    only if the menu is open and the key is not Escape; a [keyup]
    keeps it; a click anywhere else keeps it. *)
Theorem menu_transitions (follow : string -> Page -> Page)
    (steps : list Step) (h : gmap Js.loc (list NavigationLink)) (pg : Page)
    (w : World) (inst : Instance) (ev : Event) :
  run follow steps (initial h pg) = Some w ->
  root w = Some inst ->
  exists w',
    dispatch follow ev w = Some w'
    /\ is_open w'
       = match type ev with
         | click =>
             if contains Button (target ev) then negb (is_open w) else is_open w
         | mousedown =>
             is_open w && (contains Drawer (target ev) || contains Button (target ev))
         | keydown => is_open w && negb (String.eqb (Dom.key ev) "Escape")
         | keyup => is_open w
         end.
Proof.
  intros Hrun Hroot.
  pose proof (reachable_mounted follow _ _ _ _ _ Hrun Hroot) as Hwf.
  destruct (dispatch_reachable follow w inst ev Hroot Hwf)
    as (w' & inst' & Hdispatch & _ & _ & _ & _ & _ & Hopen).
  by exists w'.
Qed.

(** With the menu open, the Enter key leaves it open. *)
Lemma menu_transitions_witness :
  exists w w',
    run Examples.follow_href [Mount Examples.header_props; Dispatch Examples.press_toggle]
        (initial Examples.catalog_heap Examples.home) = Some w
    /\ is_open w = true
    /\ dispatch Examples.follow_href
         {| type := keydown; target := Elsewhere; Dom.key := "Enter" |} w = Some w'
    /\ is_open w' = true.
Proof.
  assert (exists w inst,
             run Examples.follow_href
                 [Mount Examples.header_props; Dispatch Examples.press_toggle]
                 (initial Examples.catalog_heap Examples.home) = Some w
             /\ root w = Some inst
             /\ is_open w = true) as (w & inst & Hrun & Hroot & Hopen).
  { eexists _, _. split; [vm_compute; reflexivity|]. by split. }
  destruct (menu_transitions _ _ _ _ _ _
              {| type := keydown; target := Elsewhere; Dom.key := "Enter" |} Hrun Hroot)
    as (w' & Hdispatch & Hnext).
  exists w, w'. rewrite Hopen in Hnext. by split_and!.
Defined.





(** X9.  What is rendered does not depend on the order in which the
    catalog was written.  If two arrays hold the same links in
    different orders and the [order] values are pairwise distinct (as
    the schema demands), the footer rendered from one is the footer
    rendered from the other, and the first render of the widget shows
    the same tree for both. *)
Theorem rendering_ignores_written_order
    (h1 h2 : gmap Js.loc (list NavigationLink)) (l1 l2 : Js.loc)
    (xs ys : list NavigationLink) (now : Date)
    (cls label : option string) :
  h1 !! l1 = Some xs ->
  h2 !! l2 = Some ys ->
  xs ≡ₚ ys ->
  NoDup (map order xs) ->
  exists footer1 h1' footer2 h2' v1 hk1 h1'' v2 hk2 h2'',
    Footer l1 now h1 = Some (footer1, h1')
    /\ Footer l2 now h2 = Some (footer2, h2')
    /\ footer1 = footer2
    /\ Navigation {| props_links := l1; className := cls; ariaLabel := label |}
         initial_hooks h1 = Some ((v1, hk1), h1'')
    /\ Navigation {| props_links := l2; className := cls; ariaLabel := label |}
         initial_hooks h2 = Some ((v2, hk2), h2'')
    /\ v1 = v2.
Proof.
  intros Hl1 Hl2 Hperm Hdistinct.
  pose proof (sorted_by_order_Permutation xs ys Hperm Hdistinct) as Hsame.
  destruct (Navigation_spec h1 {| props_links := l1; className := cls;
                                  ariaLabel := label |} initial_hooks xs Hl1)
    as (value1 & h1'' & Hnav1 & _); [by left|].
  destruct (Navigation_spec h2 {| props_links := l2; className := cls;
                                  ariaLabel := label |} initial_hooks ys Hl2)
    as (value2 & h2'' & Hnav2 & _); [by left|].
  eexists _, _, _, _, _, _, _, _, _, _.
  split; [apply (Footer_spec _ _ _ _ Hl1)|].
  split; [apply (Footer_spec _ _ _ _ Hl2)|].
  split; [by rewrite Hsame|].
  split; [exact Hnav1|]. split; [exact Hnav2|].
  unfold view_of. simpl. by rewrite Hsame.
Qed.

(** The shipped catalog and the same catalog written in reverse order
    give the same footer. *)
Lemma rendering_ignores_written_order_witness :
  exists footer1 h1' footer2 h2',
    Footer Examples.NAV_LINKS_links {| getFullYear := 2025 |} Examples.catalog_heap
      = Some (footer1, h1')
    /\ Footer Examples.NAV_LINKS_links {| getFullYear := 2025 |} Examples.reversed_heap
       = Some (footer2, h2')
    /\ footer1 = footer2.
Proof.
  destruct (rendering_ignores_written_order
              Examples.catalog_heap Examples.reversed_heap
              Examples.NAV_LINKS_links Examples.NAV_LINKS_links
              (links NAV_LINKS) (rev (links NAV_LINKS))
              {| getFullYear := 2025 |} None None)
    as (footer1 & h1' & footer2 & h2' & _ & _ & _ & _ & _ & _
        & Hfooter1 & Hfooter2 & Hsame & _).
  - reflexivity.
  - reflexivity.
  - apply Permutation_rev.
  - apply all_distinct_NoDup. vm_compute. reflexivity.
  - by exists footer1, h1', footer2, h2'.
Defined.

(** X10.  A catalog already in ascending [order], ties included, is
    rendered in the order in which it was written, by the footer and
    by the widget. *)
Theorem ascending_catalog_rendered_as_written
    (h : gmap Js.loc (list NavigationLink)) (p : NavigationProps)
    (xs : list NavigationLink) (now : Date) :
  h !! props_links p = Some xs ->
  StronglySorted ascending xs ->
  exists footer h' v hk h'',
    Footer (props_links p) now h = Some (footer, h')
    /\ items (footer_nav footer) = map link_item xs
    /\ Navigation p initial_hooks h = Some ((v, hk), h'')
    /\ items (desktop v) = map link_item xs.
Proof.
  intros Hl Hsorted.
  destruct (Navigation_spec h p initial_hooks xs Hl) as (value & h'' & Hnav & _);
    [by left|].
  eexists _, _, _, _, _.
  split; [apply (Footer_spec _ _ _ _ Hl)|].
  split; [simpl; by rewrite sorted_by_order_id|].
  split; [exact Hnav|].
  simpl. by rewrite sorted_by_order_id.
Qed.

Lemma ascending_catalog_rendered_as_written_witness :
  exists footer h' v hk h'',
    Footer Examples.NAV_LINKS_links {| getFullYear := 2025 |} Examples.catalog_heap
      = Some (footer, h')
    /\ items (footer_nav footer) = map link_item (links NAV_LINKS)
    /\ Navigation Examples.header_props initial_hooks Examples.catalog_heap
       = Some ((v, hk), h'')
    /\ items (desktop v) = map link_item (links NAV_LINKS).
Proof.
  apply (ascending_catalog_rendered_as_written
           Examples.catalog_heap Examples.header_props (links NAV_LINKS)
           {| getFullYear := 2025 |}).
  - reflexivity.
  - repeat constructor; unfold ascending; simpl; lia.
Defined.

(** X11.  The copyright line changes whenever the year does: clock
    readings in different years never give the same text, since the
    year can be read back from its decimal numeral. *)
Theorem copyright_text_follows_year (now1 now2 : Date) :
  getFullYear now1 ≠ getFullYear now2 ->
  getCopyrightText now1 ≠ getCopyrightText now2.
Proof.
  intros Hyears Htexts. apply Hyears. revert Htexts.
  change (getCopyrightText now1) with
    (ParseOk (A := string)
       (String.append "© " (Number_toString (getFullYear now1) +:+ " Yarson"))).
  change (getCopyrightText now2) with
    (ParseOk (A := string)
       (String.append "© " (Number_toString (getFullYear now2) +:+ " Yarson"))).
  intros [= Heq]. apply Number_toString_inj.
  apply (string_app_inj_r _ _ " Yarson"). exact Heq.
Qed.

Lemma copyright_text_follows_year_witness :
  getCopyrightText {| getFullYear := 2024 |}
  ≠ getCopyrightText {| getFullYear := 2025 |}.
Proof.
  apply (copyright_text_follows_year {| getFullYear := 2024 |}
           {| getFullYear := 2025 |}).
  simpl. lia.
Defined.

(** X12.  The menu state does not survive an unmount.  From any world
    reached from the initial one, open or closed, unmounting and
    mounting the widget again on an existing array gives a widget
    whose menu is closed, with no listener registered. *)
Theorem remount_starts_closed (follow : string -> Page -> Page)
    (steps : list Step) (h : gmap Js.loc (list NavigationLink)) (pg : Page)
    (w : World) (p : NavigationProps) (xs : list NavigationLink) :
  run follow steps (initial h pg) = Some w ->
  heap w !! props_links p = Some xs ->
  exists w' inst',
    mount p (unmount w) = Some w'
    /\ root w' = Some inst'
    /\ is_open w' = false
    /\ drawer (view inst') = None
    /\ document w' = [].
Proof.
  intros Hrun Hl.
  assert (wf w) as Hwf by (eapply run_wf; [apply wf_initial | exact Hrun]).
  destruct (unmount_spec w Hwf) as (Hroot & Hdoc & Hheap & _).
  rewrite <- Hheap in Hl.
  destruct (mount_spec (unmount w) p xs Hroot Hdoc Hl)
    as (w' & inst' & Hmount & Hroot' & Hwf' & _ & Hclosed & _).
  exists w', inst'. split; [exact Hmount|]. split; [exact Hroot'|].
  destruct Hwf' as [(ys & value & _ & _ & _ & Hview) _ _ _ Hagrees].
  rewrite Hclosed in Hagrees, Hview. destruct Hagrees as (Hdoc' & _).
  unfold is_open. rewrite Hroot', Hview. by split_and!.
Qed.

Lemma remount_starts_closed_witness :
  exists w w' inst',
    run Examples.follow_href [Mount Examples.header_props; Dispatch Examples.press_toggle]
        (initial Examples.catalog_heap Examples.home) = Some w
    /\ is_open w = true
    /\ mount Examples.header_props (unmount w) = Some w'
    /\ root w' = Some inst'
    /\ is_open w' = false
    /\ document w' = [].
Proof.
  assert (exists w,
             run Examples.follow_href
                 [Mount Examples.header_props; Dispatch Examples.press_toggle]
                 (initial Examples.catalog_heap Examples.home) = Some w
             /\ is_open w = true
             /\ heap w !! props_links Examples.header_props
                = Some (links NAV_LINKS)) as (w & Hrun & Hopen & Hl).
  { eexists. split; [vm_compute; reflexivity|]. by split. }
  destruct (remount_starts_closed _ _ _ _ _ _ _ Hrun Hl)
    as (w' & inst' & Hmount & Hroot' & Hclosed & _ & Hdoc).
  exists w, w', inst'. by split_and!.
Defined.

End Extras.
